(** * The schema engine of warehouse: a shallow embedding

    This file embeds [src/schematype.ts] (the base [SchemaType] class) and the
    schema module (the update, query, sort and populate compilers and the
    [Schema] class) and proves properties of them.

    Conventions of the embedding.

    - A JavaScript value is a [value]: [undefined], [null], booleans, numbers
      (integers, as [Z]; no floating point, no NaN), strings, opaque functions
      (an identity, interpreted by the host; such a function declares no
      parameter, its [length] is 0), arrays and plain objects. A plain object
      is the list of its own enumerable properties in the order [Object.keys]
      gives them; its keys are pairwise distinct, and where a list repeats a
      key the first entry is the property.
    - A thrown exception is a [Throw e]; code that can throw returns a
      [result]. Code that calls methods of schema types or host functions runs
      in the monad [M], which threads the state [W] of the host (whatever a
      function-valued default, a [$where] function or a method of a user's
      type reads or writes besides its arguments) and keeps it when an
      exception is thrown.
    - A document handed to a mutating closure is updated in place by the
      source; here the closure returns the updated document. What a closure
      that throws has written to the document before is not kept.
    - A closure the source builds is the Rocq function with the same body.
    - Identity of objects ([same_object]) and the relational comparison [<]
      ([less_than]) are parameters: references and the coercions of the
      comparison are the language's, not this repository's.
    - The hook, method and static registries of [Schema] are kept apart from
      [paths] and the stacks, which the calls that write them never touch:
      they are the module [Registry] at the end.
    - [paths] is the finite map of the own keys of the source's [paths]
      object; a name [paths] inherits from [Object.prototype] gives
      [Inherited] on lookup. Assigning the name [__proto__], which sets the
      prototype of [paths] and adds no key, is not modelled: what is stated
      of the keys of [paths] leaves the name out. *)

From Stdlib Require Import ZArith Ascii String List Bool Lia.
From Stdlib Require Import DecimalString DecimalNat.
From stdpp Require Import base strings gmap list.
Import ListNotations.

Set Warnings "-register-all".

Local Open Scope string_scope.
Local Open Scope list_scope.

(** ** Values *)

Inductive value : Type :=
| VUndefined
| VNull
| VBool (b : bool)
| VNum (n : Z)
| VStr (s : string)
| VFun (f : nat)
| VArr (elems : list value)
| VObj (props : list (string * value)).

(** Induction on values, through the arrays and the objects. *)
Section value_induction.

Variable P : value -> Prop.
Hypothesis P_undefined : P VUndefined.
Hypothesis P_null : P VNull.
Hypothesis P_bool : forall b, P (VBool b).
Hypothesis P_num : forall n, P (VNum n).
Hypothesis P_str : forall s, P (VStr s).
Hypothesis P_fun : forall f, P (VFun f).
Hypothesis P_arr : forall elems, Forall P elems -> P (VArr elems).
Hypothesis P_obj : forall props, Forall (fun kv => P (snd kv)) props -> P (VObj props).

Fixpoint value_nested_ind (v : value) : P v :=
  match v with
  | VUndefined => P_undefined
  | VNull => P_null
  | VBool b => P_bool b
  | VNum n => P_num n
  | VStr s => P_str s
  | VFun f => P_fun f
  | VArr elems =>
      P_arr elems
        ((fix all (l : list value) : Forall P l :=
            match l with
            | [] => List.Forall_nil P
            | x :: rest => List.Forall_cons P x rest (value_nested_ind x) (all rest)
            end) elems)
  | VObj props =>
      P_obj props
        ((fix all (l : list (string * value)) : Forall (fun kv => P (snd kv)) l :=
            match l with
            | [] => List.Forall_nil _
            | kv :: rest =>
                List.Forall_cons (fun kv => P (snd kv)) kv rest
                  (value_nested_ind (snd kv)) (all rest)
            end) props)
  end.

End value_induction.

(** [v == null] *)
Definition nullish (v : value) : bool :=
  match v with
  | VUndefined | VNull => true
  | _ => false
  end.

(** ToBoolean, as [if (v)], [!v], [a || b] and [a && b] use it. *)
Definition truthy (v : value) : bool :=
  match v with
  | VUndefined | VNull => false
  | VBool b => b
  | VNum n => negb (n =? 0)%Z
  | VStr s => negb (String.eqb s "")
  | VFun _ | VArr _ | VObj _ => true
  end.

(** [isPlainObject] of the is-plain-object package. *)
Definition isPlainObject (v : value) : bool :=
  match v with
  | VObj _ => true
  | _ => false
  end.

(** [typeof v === 'object'] *)
Definition typeof_object (v : value) : bool :=
  match v with
  | VNull | VArr _ | VObj _ => true
  | _ => false
  end.

(** [key[0] === '$'] *)
Definition starts_with_dollar (key : string) : bool :=
  match key with
  | String c _ => Ascii.eqb c "$"%char
  | EmptyString => false
  end.

(** The property key of an array index. *)
Definition index_key (i : nat) : string :=
  NilEmpty.string_of_uint (Nat.to_uint i).

(** The own property [k] of a property list. *)
Fixpoint prop_lookup (k : string) (props : list (string * value)) : option value :=
  match props with
  | [] => None
  | (k', v) :: rest => if String.eqb k k' then Some v else prop_lookup k rest
  end.

(** Assignment to the own property [k]: in place when the key exists, else
    appended. *)
Fixpoint prop_set (k : string) (x : value) (props : list (string * value))
  : list (string * value) :=
  match props with
  | [] => [(k, x)]
  | (k', v) :: rest =>
      if String.eqb k k' then (k', x) :: rest else (k', v) :: prop_set k x rest
  end.

(** [delete obj[k]] *)
Fixpoint prop_delete (k : string) (props : list (string * value))
  : list (string * value) :=
  match props with
  | [] => []
  | (k', v) :: rest =>
      if String.eqb k k' then rest else (k', v) :: prop_delete k rest
  end.

(** The one-character strings of a string, as indexing a string gives them. *)
Fixpoint chars (s : string) : list value :=
  match s with
  | EmptyString => []
  | String c rest => VStr (String c EmptyString) :: chars rest
  end.

(** [s.split(sep)] for a one-character separator: never empty. *)
Fixpoint split (sep : ascii) (s : string) : list string :=
  match s with
  | EmptyString => [EmptyString]
  | String c rest =>
      if Ascii.eqb c sep then EmptyString :: split sep rest
      else match split sep rest with
           | [] => [String c EmptyString]
           | seg :: segs => String c seg :: segs
           end
  end.

(** [s.substring(0, s.length - 1)] *)
Fixpoint drop_last (s : string) : string :=
  match s with
  | EmptyString => EmptyString
  | String c EmptyString => EmptyString
  | String c rest => String c (drop_last rest)
  end.

(** [obj[k]] for a key that is a string: own properties, the elements and the
    length of an array, the characters and the length of a string. *)
Definition get_member (v : value) (k : string) : value :=
  match v with
  | VObj props => default VUndefined (prop_lookup k props)
  | VArr elems =>
      if String.eqb k "length" then VNum (Z.of_nat (length elems))
      else default VUndefined
             (prop_lookup k (imap (fun i e => (index_key i, e)) elems))
  | VStr s =>
      if String.eqb k "length" then VNum (Z.of_nat (String.length s))
      else default VUndefined
             (prop_lookup k (imap (fun i e => (index_key i, e)) (chars s)))
  | _ => VUndefined
  end.

(** ** Exceptions *)

Inductive type_error : Type :=
| NotCallable            (* calling what is not a function *)
| NotConstructor         (* [new] on what is not a constructor *)
| NullDereference        (* a property, or the keys, of [null] or [undefined] *)
| Refused                (* the path accessor of [./util] refuses its arguments *)
| NotWritable            (* assigning to a property that cannot be written *)
| Message (msg : string) (* thrown by the sources with this message *).

Inductive error : Type :=
| TypeError (why : type_error)
| ValidationError (msg : string)
| PopulationError (msg : string).

Inductive result (A : Type) : Type :=
| Ok (a : A)
| Throw (e : error).
Arguments Ok {A} a.
Arguments Throw {A} e.

Definition result_bind {A B} (r : result A) (k : A -> result B) : result B :=
  match r with
  | Ok a => k a
  | Throw e => Throw e
  end.

(** ** State and exceptions *)

Definition SE (St A : Type) : Type := St -> result A * St.

Definition ret {St A} (a : A) : SE St A := fun s => (Ok a, s).
Definition throw {St A} (e : error) : SE St A := fun s => (Throw e, s).
Definition bind {St A B} (m : SE St A) (k : A -> SE St B) : SE St B :=
  fun s => match m s with
           | (Ok a, s') => k a s'
           | (Throw e, s') => (Throw e, s')
           end.
Definition lift {St A} (r : result A) : SE St A := fun s => (r, s).

Declare Scope se_scope.
Delimit Scope se_scope with se.
Notation "'let*' x := m 'in' k" := (bind m (fun x => k))
  (at level 10, x name, m at level 100, k at level 200, only parsing) : se_scope.
Notation "'let+' x := r 'in' k" := (result_bind r (fun x => k))
  (at level 10, x name, r at level 100, k at level 200, only parsing) : se_scope.
Local Open Scope se_scope.

(** ** The path accessor *)

(** Modelled from the spec: [getProp] of [./util], which is not among the
    sources. "Path is split on [.]. Traversal walks each intermediate key;
    accessing a key on a non-mapping yields undefined". *)
Fixpoint get_path (v : value) (segs : list string) : value :=
  match segs with
  | [] => v
  | k :: rest =>
      match v with
      | VObj props =>
          match prop_lookup k props with
          | Some x => get_path x rest
          | None => VUndefined
          end
      | _ => VUndefined
      end
  end.

Definition getProp (data : value) (key : string) : value :=
  get_path data (split "." key).

(** Modelled from the spec: [setProp] of [./util]. "On set, missing
    intermediates are created as empty mappings"; accessing a key on a
    non-mapping raises (the spec names no kind of error; a TypeError here). *)
Fixpoint set_path (v : value) (segs : list string) (x : value) : result value :=
  match segs with
  | [] => Ok x
  | k :: rest =>
      match v with
      | VObj props =>
          match rest with
          | [] => Ok (VObj (prop_set k x props))
          | _ =>
              let inner := match prop_lookup k props with
                           | Some VUndefined | None => VObj []
                           | Some i => i
                           end in
              let+ r := set_path inner rest x in
              Ok (VObj (prop_set k r props))
          end
      | _ => Throw (TypeError Refused)
      end
  end.

Definition setProp (data : value) (key : string) (x : value) : result value :=
  set_path data (split "." key) x.

(** Modelled from the spec: [delProp] of [./util]. "On del, the leaf key is
    removed but empty parents are preserved"; where the path leads nowhere
    there is nothing to remove. *)
Fixpoint del_path (v : value) (segs : list string) : value :=
  match segs with
  | [] => v
  | k :: rest =>
      match v with
      | VObj props =>
          match rest with
          | [] => VObj (prop_delete k props)
          | _ =>
              match prop_lookup k props with
              | Some i => VObj (prop_set k (del_path i rest) props)
              | None => v
              end
          end
      | _ => v
      end
  end.

Definition delProp (data : value) (key : string) : value :=
  del_path data (split "." key).

(** Modelled from the spec: the accessors take a dotted string; a key that is
    [undefined] (here [None]) cannot be split and raises a TypeError. *)
Definition getProp_key (data : value) (key : option string) : result value :=
  match key with
  | Some k => Ok (getProp data k)
  | None => Throw (TypeError Refused)
  end.

Definition setProp_key (data : value) (key : option string) (x : value)
  : result value :=
  match key with
  | Some k => setProp data k x
  | None => Throw (TypeError Refused)
  end.

Example split_example : split "." "name.first" = ["name"; "first"].
Proof. reflexivity. Qed.

Example getProp_example :
  getProp (VObj [("name", VObj [("first", VStr "Jane")])]) "name.first" = VStr "Jane".
Proof. reflexivity. Qed.

Example setProp_example :
  setProp (VObj [("age", VNum 30)]) "name.first" (VStr "Jane")
  = Ok (VObj [("age", VNum 30); ("name", VObj [("first", VStr "Jane")])]).
Proof. reflexivity. Qed.

(** * The base schema type ([src/schematype.ts]) *)

(** What a called function finds as [this]. *)
Inductive receiver : Type :=
| ThisDocument (data : value)
| ThisType (name : string).

(** The [options] argument of the constructor, each key optional. *)
Record RawOptions : Type := {
  raw_required : option bool;
  raw_default : value;
  raw_ref : option string;
}.

(** [this.options], after [Object.assign({required: false}, options)]. An
    unset [default] reads as [undefined]. *)
Record Options : Type := {
  required : bool;
  default_ : value;
  ref : option string;
}.

Definition assign_options (options : option RawOptions) : Options :=
  match options with
  | None => {| required := false; default_ := VUndefined; ref := None |}
  | Some o => {| required := match raw_required o with Some b => b | None => false end;
                 default_ := raw_default o;
                 ref := raw_ref o |}
  end.

Section Engine.

Context {W : Type}.

Abbreviation M := (SE W).

(** An instance of [SchemaType] or of a class that extends it: its
    properties, and its methods bound to it. [q_method] and [u_method] are the
    methods whose names start with [q$] and [u$], by full name; an update
    method returns its result and the document it leaves. *)
Inductive SchemaType : Type := Build_SchemaType {
  name : string;
  options : Options;
  default : M value;
  child : option SchemaType;
  cast : value -> value -> M value;
  validate : value -> value -> M value;
  compare : value -> value -> M Z;
  parse : value -> M value;
  value_ : value -> value -> M value;
  match_ : value -> value -> value -> M value;
  q_method : string -> option (value -> value -> value -> M value);
  u_method : string -> option (value -> value -> value -> M (value * value));
}.

(** A schema declaration, as [Schema.path] tells its forms apart: a value in
    which a function is a constructor (with its [name]) and an object may be an
    instance of [SchemaType]. *)
Inductive decl : Type :=
| DUndefined
| DNull
| DBool (b : bool)
| DNum (n : Z)
| DStr (s : string)
| DFunction (fname : string) (f : nat)
| DInstance (t : SchemaType)
| DArray (elems : list decl)
| DObject (props : list (string * decl)).

(** The language and the host, as the engine uses them, and the classes of
    [./types], which are not among the sources. *)
Record Host : Type := {
  (** calling the opaque function [f] with [this] bound and no argument *)
  call : nat -> receiver -> M value;
  (** [a === b] for two arrays or two objects: whether they are the same one *)
  same_object : value -> value -> bool;
  (** the relational comparison [a < b]: true, false or undefined *)
  less_than : value -> value -> option bool;
  (** [query.includes(value)] on a [query] that is not an array *)
  includes : value -> value -> M value;
  (** [new Type(name, options)] for the constructor [f] *)
  construct : nat -> string -> decl -> M SchemaType;
  (** [new Types[typeName](name, options)] *)
  Types : string -> string -> decl -> M SchemaType;
  (** [new Types.Array(name, {child})] *)
  Types_Array : string -> SchemaType -> M SchemaType;
  (** [new Types.Object()] *)
  Types_Object : M SchemaType;
  (** [new Types.Virtual(name, {})], with the getter attached when there is one *)
  Types_Virtual : string -> value -> M SchemaType;
}.

Variable host : Host.

(** [a === b] *)
Definition strict_equal (a b : value) : bool :=
  match a, b with
  | VUndefined, VUndefined => true
  | VNull, VNull => true
  | VBool x, VBool y => Bool.eqb x y
  | VNum x, VNum y => (x =? y)%Z
  | VStr x, VStr y => String.eqb x y
  | VFun f, VFun g => Nat.eqb f g
  | VArr _, VArr _ => same_object host a b
  | VObj _, VObj _ => same_object host a b
  | _, _ => false
  end.

(** [a > b], [a <= b] and [a >= b], from [less_than]. *)
Definition js_lt (a b : value) : bool :=
  match less_than host a b with Some true => true | _ => false end.
Definition js_gt (a b : value) : bool :=
  match less_than host b a with Some true => true | _ => false end.
Definition js_le (a b : value) : bool :=
  match less_than host b a with Some false => true | _ => false end.
Definition js_ge (a b : value) : bool :=
  match less_than host a b with Some false => true | _ => false end.

Definition SchemaType_default (name : string) (options : Options) : M value :=
  match default_ options with
  | VFun f => call host f (ThisType name)
  | d => ret d
  end.

Definition SchemaType_cast (name : string) (options : Options)
  (val data : value) : M value :=
  if nullish val then SchemaType_default name options else ret val.

Definition required_message (name : string) : string :=
  "`" +:+ name +:+ "` is required!".

Definition SchemaType_validate (name : string) (options : Options)
  (val data : value) : M value :=
  if required options && nullish val
  then throw (ValidationError (required_message name))
  else ret val.

Definition SchemaType_compare (a b : value) : M Z :=
  if js_gt a b then ret 1%Z
  else if js_lt a b then ret (-1)%Z
  else ret 0%Z.

Definition SchemaType_parse (val : value) : M value := ret val.

Definition SchemaType_value (val data : value) : M value := ret val.

Definition SchemaType_match (val query data : value) : M value :=
  ret (VBool (strict_equal val query)).

Section Operators.

(** The operators call [this.match], which a subclass may override. *)
Variable this_match : value -> value -> value -> M value.

Definition q_exist (val query data : value) : M value :=
  ret (VBool (strict_equal (VBool (negb (nullish val))) query)).

Definition q_ne (val query data : value) : M value :=
  let* r := this_match val query data in
  ret (VBool (negb (truthy r))).

Definition q_lt (val query data : value) : M value := ret (VBool (js_lt val query)).
Definition q_lte (val query data : value) : M value := ret (VBool (js_le val query)).
Definition q_gt (val query data : value) : M value := ret (VBool (js_gt val query)).
Definition q_gte (val query data : value) : M value := ret (VBool (js_ge val query)).

(** [Array.prototype.includes] compares with SameValueZero, which is [===]
    where no number is NaN. *)
Definition q_in (val query data : value) : M value :=
  match query with
  | VArr elems => ret (VBool (existsb (strict_equal val) elems))
  | VUndefined | VNull => throw (TypeError NullDereference)
  | _ => includes host query val
  end.

Definition q_nin (val query data : value) : M value :=
  let* r := q_in val query data in
  ret (VBool (negb (truthy r))).

Definition u_set (val update data : value) : M (value * value) :=
  ret (update, data).

Definition u_unset (val update data : value) : M (value * value) :=
  ret (if truthy update then VUndefined else val, data).

(** [update] is declared a string; another key is refused by the accessor. *)
Definition u_rename (val update data : value) : M (value * value) :=
  match val with
  | VUndefined => ret (VUndefined, data)
  | _ =>
      let* data' := lift (setProp_key data
                            (match update with VStr s => Some s | _ => None end)
                            val) in
      ret (VUndefined, data')
  end.

Definition SchemaType_q_method (qkey : string)
  : option (value -> value -> value -> M value) :=
  if String.eqb qkey "q$exist" then Some q_exist
  else if String.eqb qkey "q$exists" then Some q_exist
  else if String.eqb qkey "q$ne" then Some q_ne
  else if String.eqb qkey "q$lt" then Some q_lt
  else if String.eqb qkey "q$lte" then Some q_lte
  else if String.eqb qkey "q$max" then Some q_lte
  else if String.eqb qkey "q$gt" then Some q_gt
  else if String.eqb qkey "q$gte" then Some q_gte
  else if String.eqb qkey "q$min" then Some q_gte
  else if String.eqb qkey "q$in" then Some q_in
  else if String.eqb qkey "q$nin" then Some q_nin
  else None.

Definition SchemaType_u_method (ukey : string)
  : option (value -> value -> value -> M (value * value)) :=
  if String.eqb ukey "u$set" then Some u_set
  else if String.eqb ukey "u$unset" then Some u_unset
  else if String.eqb ukey "u$rename" then Some u_rename
  else None.

End Operators.

(** [new SchemaType(name, options)]; [name] defaults to the empty string. *)
Definition SchemaType_new (name : option string) (options : option RawOptions)
  : SchemaType :=
  let name := match name with Some n => n | None => "" end in
  let options := assign_options options in
  {| name := name;
     options := options;
     default := SchemaType_default name options;
     child := None;
     cast := SchemaType_cast name options;
     validate := SchemaType_validate name options;
     compare := SchemaType_compare;
     parse := SchemaType_parse;
     value_ := SchemaType_value;
     match_ := SchemaType_match;
     q_method := SchemaType_q_method SchemaType_match;
     u_method := SchemaType_u_method |}.

(** * The schema module *)

(** ** [paths] *)

(** The properties every object literal inherits from [Object.prototype]. *)
Definition object_prototype_names : list string :=
  [ "constructor"; "__proto__"; "hasOwnProperty"; "isPrototypeOf";
    "propertyIsEnumerable"; "toLocaleString"; "toString"; "valueOf";
    "__defineGetter__"; "__defineSetter__"; "__lookupGetter__";
    "__lookupSetter__" ].

(** What [paths[key]] finds. *)
Inductive slot : Type :=
| Own (t : SchemaType)   (* a registered schema type *)
| Inherited              (* a member of [Object.prototype]: truthy, no schema type *)
| Absent                 (* [undefined] *).

Definition paths_get (paths : gmap string SchemaType) (key : string) : slot :=
  match paths !! key with
  | Some t => Own t
  | None =>
      if existsb (String.eqb key) object_prototype_names then Inherited else Absent
  end.

(** The key [undefined] reads the property named "undefined". *)
Definition property_key (key : option string) : string :=
  match key with
  | Some k => k
  | None => "undefined"
  end.

(** What [path_ || new SchemaType(key)] leaves in [path]. *)
Inductive target : Type :=
| Typed (t : SchemaType)
| Foreign.

Definition or_new (path_ : slot) (key : option string) : target :=
  match path_ with
  | Own t => Typed t
  | Inherited => Foreign
  | Absent => Typed (SchemaType_new key None)
  end.

(** Method calls on [path]. A [Foreign] object has none of the methods. *)
Definition call_match (path : target) (val query data : value) : M value :=
  match path with
  | Typed t => match_ t val query data
  | Foreign => throw (TypeError NotCallable)
  end.

Definition call_q (path : target) (qkey : string) (val query data : value)
  : M value :=
  match path with
  | Typed t =>
      match q_method t qkey with
      | Some method => method val query data
      | None => throw (TypeError NotCallable)
      end
  | Foreign => throw (TypeError NotCallable)
  end.

Definition call_u (path : target) (ukey : string) (val update data : value)
  : M (value * value) :=
  match path with
  | Typed t =>
      match u_method t ukey with
      | Some method => method val update data
      | None => throw (TypeError NotCallable)
      end
  | Foreign => throw (TypeError NotCallable)
  end.

Definition call_compare (path : target) (a b : value) : M Z :=
  match path with
  | Typed t => compare t a b
  | Foreign => throw (TypeError NotCallable)
  end.

(** The closures the compilers build. *)
Definition queryFilterCallback : Type := value -> M value.
Definition queryCallback : Type := value -> M value.
Definition queryParseCallback : Type := value -> value -> M value.

(** ** QueryParser *)

Definition queryStackNormal (paths : gmap string SchemaType)
  (name : string) (query : value) : queryFilterCallback :=
  let path := or_new (paths_get paths name) (Some name) in
  fun data => call_match path (getProp data name) query data.

Definition queryStackOperator (paths : gmap string SchemaType)
  (qkey name : string) (query : value) : queryFilterCallback :=
  let path := or_new (paths_get paths name) (Some name) in
  fun data => call_q path qkey (getProp data name) query data.

(** The closure of [execQuery]: false at the first predicate that fails. *)
Fixpoint execQuery_closure (stack : list queryFilterCallback) (data : value)
  : M value :=
  match stack with
  | [] => ret (VBool true)
  | f :: rest =>
      let* r := f data in
      if truthy r then execQuery_closure rest data else ret (VBool false)
  end.

(** The closure of [$or]: true at the first predicate that passes. *)
Fixpoint or_closure (stack : list queryFilterCallback) (data : value)
  : M value :=
  match stack with
  | [] => ret (VBool false)
  | f :: rest =>
      let* r := f data in
      if truthy r then ret (VBool true) else or_closure rest data
  end.

(** The closure of [$nor]: false at the first predicate that passes. *)
Fixpoint nor_closure (stack : list queryFilterCallback) (data : value)
  : M value :=
  match stack with
  | [] => ret (VBool true)
  | f :: rest =>
      let* r := f data in
      if truthy r then ret (VBool false) else nor_closure rest data
  end.

(** The closure of [$not]: true at the first predicate that fails. *)
Fixpoint not_closure (stack : list queryFilterCallback) (data : value)
  : M value :=
  match stack with
  | [] => ret (VBool false)
  | f :: rest =>
      let* r := f data in
      if truthy r then not_closure rest data else ret (VBool true)
  end.

(** [$where]: [Reflect.apply(fn, data, [])]. *)
Definition op_where (fn : value) : queryFilterCallback :=
  fun data =>
    match fn with
    | VFun f => call host f (ThisDocument data)
    | _ => throw (TypeError NotCallable)
    end.

Section QueryParser.

(** [this.paths] *)
Variable paths : gmap string SchemaType.

(** [parseNormalQuery] is only called on plain objects. *)
Fixpoint parseNormalQuery (queries : value) (prefix : string)
  (stack : list queryFilterCallback) {struct queries} : list queryFilterCallback :=
  match queries with
  | VObj props =>
      (fix loop (props : list (string * value)) (stack : list queryFilterCallback)
         : list queryFilterCallback :=
         match props with
         | [] => stack
         | (key, query) :: rest =>
             if starts_with_dollar key
             then loop rest (stack ++ [queryStackOperator paths ("q" +:+ key) prefix query])
             else
               let name := prefix +:+ "." +:+ key in
               match query with
               | VObj _ => loop rest (parseNormalQuery query name stack)
               | _ => loop rest (stack ++ [queryStackNormal paths name query])
               end
         end) props stack
  | _ => stack
  end.

(** The [default] case of [parseQuery]'s switch. *)
Definition parseQuery_default (key : string) (query : value)
  (stack : list queryFilterCallback) : list queryFilterCallback :=
  if isPlainObject query then parseNormalQuery query key stack
  else stack ++ [queryStackNormal paths key query].

(** [parseQuery] on an array or a string: the keys are the indices, which are
    none of the five operators. *)
Definition parseQuery_indexed (elems : list value) : list queryFilterCallback :=
  fold_left (fun stack entry => parseQuery_default (fst entry) (snd entry) stack)
            (imap (fun i e => (index_key i, e)) elems) [].

Section Open.

(** The methods below call each other through [this.parseQuery]. *)
Variable this_parseQuery : value -> result (list queryFilterCallback).

Definition execQuery_open (query : value) : result queryFilterCallback :=
  let+ stack := this_parseQuery query in
  Ok (execQuery_closure stack).

(** [$and]: the loop runs over [arr.length] and [arr[i]]. An array gives its
    elements and a string its characters; [null] and [undefined] have no
    properties; a boolean and a number have no [length], and an opaque
    function has length 0, declaring no parameter. *)
Definition op_and_loop
  : list value -> list queryFilterCallback -> result (list queryFilterCallback) :=
  fix loop (elems : list value) (stack : list queryFilterCallback) :=
    match elems with
    | [] => Ok stack
    | query :: rest =>
        let+ f := execQuery_open query in
        loop rest (stack ++ [f])
    end.

(** [this.execQuery(arr[i])] for a plain object [arr]: an index that is no
    key of it reads [undefined], whose keys [parseQuery] cannot list. *)
Definition op_and_element (i : nat)
  : list (string * value) -> result queryFilterCallback :=
  fix find (props : list (string * value)) :=
    match props with
    | [] => Throw (TypeError NullDereference)
    | (key, query) :: rest =>
        if String.eqb key (index_key i) then execQuery_open query else find rest
    end.

(** The loop on a plain object, from the index [i] on: [len] is its [length],
    [undefined] when it has none, and [i < len] is the language's comparison.
    The loop ends at the first index that is no key, if not before: it takes
    at most one turn more than the object has keys, and [turns] counts the
    turns that may follow this one. *)
Definition op_and_object (props : list (string * value)) (len : value)
  : nat -> nat -> list queryFilterCallback -> result (list queryFilterCallback) :=
  fix loop (turns i : nat) (stack : list queryFilterCallback) {struct turns} :=
    match less_than host (VNum (Z.of_nat i)) len with
    | Some true =>
        let+ f := op_and_element i props in
        match turns with
        | S turns' => loop turns' (S i) (stack ++ [f])
        | 0 => Ok (stack ++ [f])
        end
    | _ => Ok stack
    end.

Definition op_and (arr : value) (stack : list queryFilterCallback)
  : result (list queryFilterCallback) :=
  match arr with
  | VArr elems => op_and_loop elems stack
  | VStr s =>
      Ok (stack ++ map (fun c => execQuery_closure (parseQuery_indexed [c])) (chars s))
  | VObj props =>
      op_and_object props (get_member arr "length") (length props) 0 stack
  | VUndefined | VNull => Throw (TypeError NullDereference)
  | VBool _ | VNum _ | VFun _ => Ok stack
  end.

Definition parseQueryArray (arr : value) : result (list queryFilterCallback) :=
  op_and arr [].

Definition op_or (query : value) : result queryFilterCallback :=
  let+ stack := parseQueryArray query in
  Ok (or_closure stack).

Definition op_nor (query : value) : result queryFilterCallback :=
  let+ stack := parseQueryArray query in
  Ok (nor_closure stack).

Definition op_not (query : value) : result queryFilterCallback :=
  let+ stack := this_parseQuery query in
  Ok (not_closure stack).

(** One turn of [parseQuery]'s loop: the switch on [key]. *)
Definition parseQuery_step (key : string) (query : value)
  (stack : list queryFilterCallback) : result (list queryFilterCallback) :=
  if String.eqb key "$and" then op_and query stack
  else if String.eqb key "$or" then
    let+ f := op_or query in Ok (stack ++ [f])
  else if String.eqb key "$nor" then
    let+ f := op_nor query in Ok (stack ++ [f])
  else if String.eqb key "$not" then
    let+ f := op_not query in Ok (stack ++ [f])
  else if String.eqb key "$where" then Ok (stack ++ [op_where query])
  else Ok (parseQuery_default key query stack).

(** The loop of [parseQuery] over the entries of a plain object. *)
Definition parseQuery_loop
  : list (string * value) -> list queryFilterCallback
    -> result (list queryFilterCallback) :=
  fix loop (props : list (string * value)) (stack : list queryFilterCallback) :=
    match props with
    | [] => Ok stack
    | (key, query) :: rest =>
        let+ stack' := parseQuery_step key query stack in
        loop rest stack'
    end.

End Open.

Fixpoint parseQuery (queries : value) : result (list queryFilterCallback) :=
  match queries with
  | VObj props => parseQuery_loop parseQuery props []
  | VArr elems => Ok (parseQuery_indexed elems)
  | VStr s => Ok (parseQuery_indexed (chars s))
  | VUndefined | VNull => Throw (TypeError NullDereference)
  | VBool _ | VNum _ | VFun _ => Ok []
  end.

Definition execQuery (query : value) : result queryFilterCallback :=
  execQuery_open parseQuery query.

End QueryParser.

(** [Object.keys(v)] *)
Definition own_keys (v : value) : result (list string) :=
  match v with
  | VObj props => Ok (map fst props)
  | VArr elems => Ok (imap (fun i _ => index_key i) elems)
  | VStr s => Ok (imap (fun i _ => index_key i) (chars s))
  | VUndefined | VNull => Throw (TypeError NullDereference)
  | VBool _ | VNum _ | VFun _ => Ok []
  end.

(** ** UpdateParser *)

Definition updateStackNormal (key : string) (update : value) : queryCallback :=
  fun data => lift (setProp data key update).

(** The arguments of the method call are evaluated before the call. *)
Definition updateStackOperator (path_ : slot) (ukey : string)
  (key : option string) (update : value) : queryCallback :=
  let path := or_new path_ key in
  fun data =>
    let* val := lift (getProp_key data key) in
    let* r := call_u path ukey val update data in
    lift (setProp_key (snd r) key (fst r)).

Section UpdateParser.

(** [this.paths] *)
Variable paths : gmap string SchemaType.

(** The inline form: [fields[i]] is read with the index [i] of the outer loop,
    once for each of the [fieldLen] turns of the inner one. *)
Definition inline_operators (ukey : string) (i : nat) (update : value)
  (stack : list queryCallback) : result (list queryCallback) :=
  let+ fields := own_keys update in
  let field := fields !! i in
  Ok (stack ++ replicate (length fields)
        (updateStackOperator (paths_get paths (property_key field)) ukey field
           (get_member update (property_key field)))).

(** One turn of [parseUpdate]'s loop, for the [i]-th key. *)
Definition parseUpdate_step
  (this_parseUpdate : value -> string -> list queryCallback -> result (list queryCallback))
  (prefix : string) (i : nat) (key : string) (update : value)
  (stack : list queryCallback) : result (list queryCallback) :=
  let name := prefix +:+ key in
  if starts_with_dollar key then
    let ukey := "u" +:+ key in
    if negb (String.eqb prefix "") then
      let prefixNoDot := drop_last prefix in
      Ok (stack ++ [updateStackOperator (paths_get paths prefixNoDot) ukey
                      (Some prefixNoDot) update])
    else inline_operators ukey i update stack
  else if isPlainObject update then this_parseUpdate update (name +:+ ".") stack
  else Ok (stack ++ [updateStackNormal name update]).

(** The loop of [parseUpdate], from the [i]-th key on: [entries] are the keys
    still to come, each with its value. *)
Definition parseUpdate_loop
  (this_parseUpdate : value -> string -> list queryCallback -> result (list queryCallback))
  (prefix : string)
  : nat -> list (string * value) -> list queryCallback
    -> result (list queryCallback) :=
  fix loop (i : nat) (entries : list (string * value)) (stack : list queryCallback) :=
    match entries with
    | [] => Ok stack
    | (key, update) :: rest =>
        let+ stack' := parseUpdate_step this_parseUpdate prefix i key update stack in
        loop (S i) rest stack'
    end.

(** The same loop over an array, whose [i]-th key is the index [i]. *)
Definition parseUpdate_loop_indexed
  (this_parseUpdate : value -> string -> list queryCallback -> result (list queryCallback))
  (prefix : string)
  : nat -> list value -> list queryCallback -> result (list queryCallback) :=
  fix loop (i : nat) (elems : list value) (stack : list queryCallback) :=
    match elems with
    | [] => Ok stack
    | update :: rest =>
        let+ stack' :=
          parseUpdate_step this_parseUpdate prefix i (index_key i) update stack in
        loop (S i) rest stack'
    end.

Fixpoint parseUpdate (updates : value) (prefix : string)
  (stack : list queryCallback) {struct updates} : result (list queryCallback) :=
  match updates with
  | VObj props => parseUpdate_loop parseUpdate prefix 0 props stack
  | VArr elems => parseUpdate_loop_indexed parseUpdate prefix 0 elems stack
  | VStr s =>
      Ok (stack ++ imap (fun i c => updateStackNormal (prefix +:+ index_key i) c)
                        (chars s))
  | VUndefined | VNull => Throw (TypeError NullDereference)
  | VBool _ | VNum _ | VFun _ => Ok stack
  end.

End UpdateParser.

(** Running a list of mutating closures in order. *)
Fixpoint run_stack (stack : list queryCallback) (data : value) : M value :=
  match stack with
  | [] => ret data
  | f :: rest =>
      let* data' := f data in
      run_stack rest data'
  end.

(** ** Sorting *)

(** The loop of [execSortStack]'s closure; [result] is the variable it
    declares, [undefined] at first. *)
Fixpoint execSortStack_loop (stack : list queryParseCallback) (result : value)
  (a b : value) : M value :=
  match stack with
  | [] => ret result
  | f :: rest =>
      let* r := f a b in
      if truthy r then ret r else execSortStack_loop rest r a b
  end.

Definition execSortStack (stack : list queryParseCallback) : queryParseCallback :=
  fun a b => execSortStack_loop stack VUndefined a b.

(** [descending && result ? result * -1 : result] *)
Definition directed (descending : bool) (result : Z) : Z :=
  if descending && negb (result =? 0)%Z then (result * -1)%Z else result.

Definition is_descending (sort : value) : bool :=
  strict_equal sort (VStr "desc") || strict_equal sort (VNum (-1)).

Definition sortStack (path_ : slot) (key : string) (sort : value)
  : queryParseCallback :=
  let path := or_new path_ (Some key) in
  let descending := is_descending sort in
  fun a b =>
    let* result := call_compare path (getProp a key) (getProp b key) in
    ret (VNum (directed descending result)).

Section SortParser.

(** [this.paths] *)
Variable paths : gmap string SchemaType.

(** One turn of [_parseSort]'s loop. *)
Definition parseSort_step
  (this_parseSort : value -> string -> list queryParseCallback
                    -> result (list queryParseCallback))
  (prefix key : string) (sort : value) (stack : list queryParseCallback)
  : result (list queryParseCallback) :=
  let name := prefix +:+ key in
  if typeof_object sort then this_parseSort sort (name +:+ ".") stack
  else Ok (stack ++ [sortStack (paths_get paths name) name sort]).

Definition parseSort_loop
  (this_parseSort : value -> string -> list queryParseCallback
                    -> result (list queryParseCallback))
  (prefix : string)
  : list (string * value) -> list queryParseCallback
    -> result (list queryParseCallback) :=
  fix loop (props : list (string * value)) (stack : list queryParseCallback) :=
    match props with
    | [] => Ok stack
    | (key, sort) :: rest =>
        let+ stack' := parseSort_step this_parseSort prefix key sort stack in
        loop rest stack'
    end.

Definition parseSort_loop_indexed
  (this_parseSort : value -> string -> list queryParseCallback
                    -> result (list queryParseCallback))
  (prefix : string)
  : nat -> list value -> list queryParseCallback
    -> result (list queryParseCallback) :=
  fix loop (i : nat) (elems : list value) (stack : list queryParseCallback) :=
    match elems with
    | [] => Ok stack
    | sort :: rest =>
        let+ stack' :=
          parseSort_step this_parseSort prefix (index_key i) sort stack in
        loop (S i) rest stack'
    end.

Fixpoint _parseSort (sorts : value) (prefix : string)
  (stack : list queryParseCallback) {struct sorts}
  : result (list queryParseCallback) :=
  match sorts with
  | VObj props => parseSort_loop _parseSort prefix props stack
  | VArr elems => parseSort_loop_indexed _parseSort prefix 0 elems stack
  | VStr s =>
      Ok (stack ++ imap (fun i c =>
                           let name := prefix +:+ index_key i in
                           sortStack (paths_get paths name) name c)
                        (chars s))
  | VUndefined | VNull => Throw (TypeError NullDereference)
  | VBool _ | VNum _ | VFun _ => Ok stack
  end.

Definition _execSort (sorts : value) : result queryParseCallback :=
  let+ stack := _parseSort sorts "" [] in
  Ok (execSortStack stack).

End SortParser.

(** ** Schema *)

Record Stacks : Type := {
  getter : list queryCallback;
  setter : list queryCallback;
  import_ : list queryCallback;
  export_ : list queryCallback;
}.

Record Schema : Type := {
  paths : gmap string SchemaType;
  stacks : Stacks;
}.

(** [new Schema()] *)
Definition Schema_empty : Schema :=
  {| paths := ∅;
     stacks := {| getter := []; setter := []; import_ := []; export_ := [] |} |}.

(** Registration runs on the schema and the host. *)
Abbreviation R := (SE (Schema * W)).

Definition on_host {A} (m : M A) : R A :=
  fun st => let (r, w) := m (snd st) in (r, (fst st, w)).

Definition update_schema (f : Schema -> Schema) : R unit :=
  fun st => (Ok tt, (f (fst st), snd st)).

Definition builtinTypes : list string :=
  ["String"; "Number"; "Boolean"; "Array"; "Object"; "Date"; "Buffer"].

Fixpoint decl_lookup (k : string) (props : list (string * decl)) : option decl :=
  match props with
  | [] => None
  | (k', d) :: rest => if String.eqb k k' then Some d else decl_lookup k rest
  end.

Definition decl_truthy (d : decl) : bool :=
  match d with
  | DUndefined | DNull => false
  | DBool b => b
  | DNum n => negb (n =? 0)%Z
  | DStr s => negb (String.eqb s "")
  | DFunction _ _ | DInstance _ | DArray _ | DObject _ => true
  end.

(** [obj.type], where it is truthy. *)
Definition type_of (obj : decl) : option decl :=
  match obj with
  | DObject props =>
      match decl_lookup "type" props with
      | Some d => if decl_truthy d then Some d else None
      | None => None
      end
  | _ => None
  end.

(** [Type.name], where it is a string. *)
Definition name_of (Type_ : decl) : option string :=
  match Type_ with
  | DFunction fname _ => Some fname
  | DInstance t => Some (name t)
  | DObject props =>
      match decl_lookup "name" props with
      | Some (DStr s) => Some s
      | _ => None
      end
  | _ => None
  end.

Definition getSchemaType (name : string) (options : decl) : M SchemaType :=
  match options with
  | DUndefined | DNull => throw (TypeError NullDereference)
  | _ =>
      let Type_ := match type_of options with Some d => d | None => options end in
      let builtin := match name_of Type_ with
                     | Some typeName =>
                         if existsb (String.eqb typeName) builtinTypes
                         then Some typeName else None
                     | None => None
                     end in
      match builtin with
      | Some typeName => Types host typeName name options
      | None =>
          match Type_ with
          | DFunction _ f => construct host f name options
          | _ => throw (TypeError NotConstructor)
          end
      end
  end.

Definition getter_closure (name : string) (type : SchemaType) : queryCallback :=
  fun data =>
    let val := getProp data name in
    let* result := cast type val data in
    match result with
    | VUndefined => ret data
    | _ => lift (setProp data name result)
    end.

Definition setter_closure (name : string) (type : SchemaType) : queryCallback :=
  fun data =>
    let val := getProp data name in
    let* result := validate type val data in
    match result with
    | VUndefined => ret (delProp data name)
    | _ => lift (setProp data name result)
    end.

Definition import_closure (name : string) (type : SchemaType) : queryCallback :=
  fun data =>
    let val := getProp data name in
    let* result := parse type val in
    match result with
    | VUndefined => ret data
    | _ => lift (setProp data name result)
    end.

Definition export_closure (name : string) (type : SchemaType) : queryCallback :=
  fun data =>
    let val := getProp data name in
    let* result := value_ type val data in
    match result with
    | VUndefined => ret (delProp data name)
    | _ => lift (setProp data name result)
    end.

Definition _updateStack (name : string) (type : SchemaType) (stacks : Stacks)
  : Stacks :=
  {| getter := getter stacks ++ [getter_closure name type];
     setter := setter stacks ++ [setter_closure name type];
     import_ := import_ stacks ++ [import_closure name type];
     export_ := export_ stacks ++ [export_closure name type] |}.

(** [this.paths[name] = type; this._updateStack(name, type);], for a name
    other than [__proto__]: assigning that name sets the prototype of [paths]
    and adds no key, which the map of the own keys does not tell (reading
    the name then gives the type all the same). What is stated of the keys
    of [paths] leaves the name out. *)
Definition install (name : string) (type : SchemaType) (s : Schema) : Schema :=
  {| paths := <[name := type]> (paths s);
     stacks := _updateStack name type (stacks s) |}.

Section Add.

(** [add] calls [this.path] on each entry. *)
Variable this_path : string -> decl -> R (option slot).

Definition add_open : list (string * decl) -> string -> R unit :=
  fix loop (schema : list (string * decl)) (prefix : string) : R unit :=
    match schema with
    | [] => ret tt
    | (key, value) :: rest =>
        let* _ := this_path (prefix +:+ key) value in
        loop rest prefix
    end.

End Add.

(** [path(name)] reads a path; [path(name, obj)] installs one and returns
    nothing. *)
Fixpoint path (name : string) (obj : decl) {struct obj} : R (option slot) :=
  match obj with
  | DUndefined | DNull =>
      fun st => (Ok (Some (paths_get (paths (fst st)) name)), st)
  | DInstance type =>
      let* _ := update_schema (install name type) in
      ret None
  | DFunction _ _ =>
      let* type := on_host (getSchemaType name (DObject [("type", obj)])) in
      let* _ := update_schema (install name type) in
      ret None
  | DArray elems =>
      let* child := match elems with
                    | first :: _ => on_host (getSchemaType name first)
                    | [] => ret (SchemaType_new (Some name) None)
                    end in
      let* type := on_host (Types_Array host name child) in
      let* _ := update_schema (install name type) in
      ret None
  | DObject props =>
      match type_of obj with
      | Some _ =>
          let* type := on_host (getSchemaType name obj) in
          let* _ := update_schema (install name type) in
          ret None
      | None =>
          let* type := on_host (Types_Object host) in
          let* _ := update_schema (install name type) in
          let* _ := add_open path props (name +:+ ".") in
          ret None
      end
  | DBool _ | DNum _ | DStr _ =>
      throw (TypeError (Message ("Invalid value for schema path `" +:+ name +:+ "`")))
  end.

Definition add (schema : list (string * decl)) (prefix : string) : R unit :=
  add_open path schema prefix.

(** [new Schema(schema)] *)
Definition Schema_new (schema : option (list (string * decl))) : W -> result unit * (Schema * W) :=
  fun w =>
    match schema with
    | Some decls => add decls "" (Schema_empty, w)
    | None => (Ok tt, (Schema_empty, w))
    end.

Definition virtual (name : string) (getter_ : value) : R SchemaType :=
  let* v := on_host (Types_Virtual host name getter_) in
  let* _ := path name (DInstance v) in
  ret v.

Definition _applyGetters (s : Schema) (data : value) : M value :=
  run_stack (getter (stacks s)) data.

Definition _applySetters (s : Schema) (data : value) : M value :=
  run_stack (setter (stacks s)) data.

Definition _parseDatabase (s : Schema) (data : value) : M value :=
  run_stack (import_ (stacks s)) data.

Definition _exportDatabase (s : Schema) (data : value) : M value :=
  run_stack (export_ (stacks s)) data.

Definition _parseUpdate (s : Schema) (updates : value) : result (list queryCallback) :=
  parseUpdate (paths s) updates "" [].

Definition _execQuery (s : Schema) (query : value) : result queryFilterCallback :=
  execQuery (paths s) query.

(** ** Population *)

(** Modelled from the spec: the [Options] of [./types], which is not among the
    sources: "an ordered list of [{path, model?, ...}] mappings". *)
Record PopulateOptions : Type := {
  item_path : option string;
  item_model : option string;
  item_rest : list (string * value);
}.

Inductive populate_item : Type :=
| ItemString (s : string)
| ItemOptions (o : PopulateOptions).

Inductive populate_expr : Type :=
| ExprString (s : string)
| ExprArray (items : list populate_item)
| ExprOptions (o : PopulateOptions).

Definition of_path (p : string) : PopulateOptions :=
  {| item_path := Some p; item_model := None; item_rest := [] |}.

(** The first part of [_parsePopulate]: the list [arr]. *)
Definition populate_items (expr : populate_expr) : list PopulateOptions :=
  match expr with
  | ExprString s => map of_path (split " " s)
  | ExprArray items =>
      map (fun item => match item with
                       | ItemString p => of_path p
                       | ItemOptions o => o
                       end) items
  | ExprOptions o => [o]
  end.

(** [!s] for a string that may be missing. *)
Definition missing (s : option string) : bool :=
  match s with
  | None => true
  | Some x => String.eqb x ""
  end.

(** [path.child ? path.child.options.ref : path.options.ref] on a schema
    type: the child's [ref] for an Array type, else its own. *)
Definition type_ref (t : SchemaType) : option string :=
  match child t with
  | Some c => ref (options c)
  | None => ref (options t)
  end.

(** The same on what [paths[key]] gave: what is no schema type has no
    [child] and no [options]. *)
Definition ref_of (path_ : slot) : result (option string) :=
  match path_ with
  | Own t => Ok (type_ref t)
  | Inherited => Throw (TypeError NullDereference)
  | Absent => Throw (TypeError NullDereference)
  end.

(** One turn of the second loop of [_parsePopulate]. *)
Definition populate_step (paths : gmap string SchemaType) (item : PopulateOptions)
  : result PopulateOptions :=
  match item_path item with
  | None => Throw (PopulationError "path is required")
  | Some key =>
      if String.eqb key "" then Throw (PopulationError "path is required")
      else if missing (item_model item) then
        let+ ref := ref_of (paths_get paths key) in
        if missing ref then Throw (PopulationError "model is required")
        else Ok {| item_path := item_path item;
                   item_model := ref;
                   item_rest := item_rest item |}
      else Ok item
  end.

Fixpoint populate_loop (paths : gmap string SchemaType) (arr : list PopulateOptions)
  : result (list PopulateOptions) :=
  match arr with
  | [] => Ok []
  | item :: rest =>
      let+ item' := populate_step paths item in
      let+ rest' := populate_loop paths rest in
      Ok (item' :: rest')
  end.

Definition _parsePopulate (s : Schema) (expr : populate_expr)
  : result (list PopulateOptions) :=
  populate_loop (paths s) (populate_items expr).

(** * Properties *)

(** ** The base type: [cast] and [validate] *)

Lemma nullish_cases (v : value) :
  nullish v = true <-> v = VUndefined \/ v = VNull.
Proof.
  destruct v; simpl; split; intros H; try discriminate; auto;
    destruct H as [H | H]; discriminate.
Qed.

(** C6. [cast] of a base type returns a value that is neither null nor
    undefined unchanged. For null and undefined it returns the default: a
    function-valued [options.default] is called, on the state of the host at
    that moment, in every call of [cast] (two casts in a row are two calls in
    a row); any other default is returned as it is, and an unset default gives
    [undefined]. *)
Theorem cast_returns_value_or_default (nm : option string)
  (opts : option RawOptions) (v data : value) (w : W) :
  let t := SchemaType_new nm opts in
  (nullish v = false -> cast t v data w = (Ok v, w))
  /\ (nullish v = true ->
      forall f, default_ (options t) = VFun f ->
        cast t v data w = call host f (ThisType (name t)) w
        /\ (let* a := cast t v data in let* b := cast t v data in ret (a, b)) w
           = (let* a := call host f (ThisType (name t)) in
              let* b := call host f (ThisType (name t)) in ret (a, b)) w)
  /\ (nullish v = true ->
      (forall f, default_ (options t) <> VFun f) ->
        cast t v data w = (Ok (default_ (options t)), w))
  /\ (nullish v = true ->
      opts = None \/ default_ (options t) = VUndefined ->
      cast t v data w = (Ok VUndefined, w)).
Proof.
  cbn [SchemaType_new cast options name].
  unfold SchemaType_cast, SchemaType_default.
  repeat split.
  - intros ->. reflexivity.
  - rewrite H, H0. reflexivity.
  - unfold bind. rewrite H, H0. reflexivity.
  - intros Hn Hf. rewrite Hn.
    destruct (default_ (assign_options opts)) eqn:E; try reflexivity.
    exfalso. apply (Hf f). reflexivity.
  - intros Hn [-> | Hd]; rewrite Hn; [reflexivity |].
    rewrite Hd. reflexivity.
Qed.

Lemma validate_unfold (nm : option string) (opts : option RawOptions)
  (v data : value) (w : W) :
  validate (SchemaType_new nm opts) v data w
  = if required (assign_options opts) && nullish v
    then (Throw (ValidationError
                   (required_message (name (SchemaType_new nm opts)))), w)
    else (Ok v, w).
Proof.
  cbn [SchemaType_new validate name]. unfold SchemaType_validate.
  destruct (required (assign_options opts) && nullish v); reflexivity.
Qed.

Lemma run_stack_app (pre post : list queryCallback) (data : value) (w : W) :
  run_stack (pre ++ post) data w
  = match run_stack pre data w with
    | (Ok data', w') => run_stack post data' w'
    | (Throw e, w') => (Throw e, w')
    end.
Proof.
  revert data w. induction pre as [| f pre IH]; intros data w; simpl.
  - reflexivity.
  - unfold bind. destruct (f data w) as [[data' | e] w']; [apply IH | reflexivity].
Qed.

(** C7. [validate] of a base type throws exactly when [options.required] holds
    and the value is null or undefined; what it throws is a ValidationError
    whose message names the field, and otherwise it returns the value
    unchanged. Whatever [validate] throws inside a setter reaches the caller of
    [_applySetters]: no closure before it failed, and nothing catches it. *)
Theorem validate_required_and_propagation :
  (forall nm opts v data w,
      let t := SchemaType_new nm opts in
      ((exists e w', validate t v data w = (Throw e, w'))
       <-> required (options t) = true /\ (v = VNull \/ v = VUndefined))
      /\ (forall e w', validate t v data w = (Throw e, w') ->
            e = ValidationError ("`" +:+ name t +:+ "` is required!")
            /\ w' = w)
      /\ (forall r w', validate t v data w = (Ok r, w') -> r = v /\ w' = w))
  /\ (forall s pre post nm type data data' w w' w'' e,
        setter (stacks s) = pre ++ setter_closure nm type :: post ->
        run_stack pre data w = (Ok data', w') ->
        validate type (getProp data' nm) data' w' = (Throw e, w'') ->
        _applySetters s data w = (Throw e, w'')).
Proof.
  split.
  - intros nm opts v data w t. subst t. rewrite validate_unfold.
    unfold required_message. cbn [SchemaType_new options name].
    assert (Hnull : nullish v = true <-> v = VNull \/ v = VUndefined)
      by (rewrite nullish_cases; tauto).
    destruct (required (assign_options opts)) eqn:Hr;
      destruct (nullish v) eqn:Hn; simpl.
    + split; [| split].
      * split; [intros _; split; [reflexivity | apply Hnull; reflexivity] |].
        intros _. eauto.
      * intros e w' H. injection H as <- <-. split; reflexivity.
      * intros r w' H. discriminate H.
    + split; [| split].
      * split; [intros (e & w' & H); discriminate H |].
        intros [_ H]. apply Hnull in H. discriminate H.
      * intros e w' H. discriminate H.
      * intros r w' H. injection H as <- <-. split; reflexivity.
    + split; [| split].
      * split; [intros (e & w' & H); discriminate H |].
        intros [H _]. discriminate H.
      * intros e w' H. discriminate H.
      * intros r w' H. injection H as <- <-. split; reflexivity.
    + split; [| split].
      * split; [intros (e & w' & H); discriminate H |].
        intros [H _]. discriminate H.
      * intros e w' H. discriminate H.
      * intros r w' H. injection H as <- <-. split; reflexivity.
  - intros s pre post nm type data data' w w' w'' e Hs Hpre Hv.
    unfold _applySetters. rewrite Hs, run_stack_app, Hpre. simpl.
    unfold bind, setter_closure at 1. unfold bind. rewrite Hv. reflexivity.
Qed.

(** ** Queries *)

(** The negation of a predicate's outcome: an exception stays as it is. *)
Definition negated (x : result value * W) : result value * W :=
  (match fst x with
   | Ok v => Ok (VBool (negb (truthy v)))
   | Throw e => Throw e
   end, snd x).

(** A predicate that returns a boolean whenever it returns. *)
Definition boolean_outcome (x : result value * W) : Prop :=
  match fst x with
  | Ok (VBool _) | Throw _ => True
  | Ok _ => False
  end.

Lemma nor_negates_or (stack : list queryFilterCallback) (d : value) (w : W) :
  nor_closure stack d w = negated (or_closure stack d w).
Proof.
  revert w. induction stack as [| f stack IH]; intros w; simpl; [reflexivity |].
  unfold bind. destruct (f d w) as [[r | e] w']; [| reflexivity].
  destruct (truthy r); [reflexivity | apply IH].
Qed.

Lemma not_negates_all (stack : list queryFilterCallback) (d : value) (w : W) :
  not_closure stack d w = negated (execQuery_closure stack d w).
Proof.
  revert w. induction stack as [| f stack IH]; intros w; simpl; [reflexivity |].
  unfold bind. destruct (f d w) as [[r | e] w']; [| reflexivity].
  destruct (truthy r); [apply IH | reflexivity].
Qed.

Lemma or_closure_boolean (stack : list queryFilterCallback) (d : value) (w : W) :
  boolean_outcome (or_closure stack d w).
Proof.
  revert w. induction stack as [| f stack IH]; intros w; simpl; [exact I |].
  unfold bind. destruct (f d w) as [[r | e] w']; [| exact I].
  destruct (truthy r); [exact I | apply IH].
Qed.

Lemma execQuery_closure_boolean (stack : list queryFilterCallback) (d : value) (w : W) :
  boolean_outcome (execQuery_closure stack d w).
Proof.
  revert w. induction stack as [| f stack IH]; intros w; simpl; [exact I |].
  unfold bind. destruct (f d w) as [[r | e] w']; [| exact I].
  destruct (truthy r); [apply IH | exact I].
Qed.

Lemma negated_boolean (x : result value * W) : boolean_outcome (negated x).
Proof. destruct x as [[v | e] w]; exact I. Qed.

(** A single boolean predicate under [execQuery]'s closure is itself. *)
Lemma execQuery_closure_single (f : queryFilterCallback) (d : value) (w : W) :
  boolean_outcome (f d w) -> execQuery_closure [f] d w = f d w.
Proof.
  simpl. unfold bind, boolean_outcome.
  destruct (f d w) as [[r | e] w']; simpl; [| reflexivity].
  destruct r; try contradiction. destruct b; reflexivity.
Qed.

Lemma parseQuery_single (paths : gmap string SchemaType) (key : string) (query : value) :
  parseQuery paths (VObj [(key, query)])
  = parseQuery_step paths (parseQuery paths) key query [].
Proof.
  simpl. destruct (parseQuery_step paths (parseQuery paths) key query []); reflexivity.
Qed.

(** How the outcomes of compiling two queries are related: both fail with the
    same exception, or both give a predicate and the two are related. *)
Definition both (rel : queryFilterCallback -> queryFilterCallback -> Prop)
  (x y : result queryFilterCallback) : Prop :=
  match x, y with
  | Ok f, Ok g => rel f g
  | Throw e, Throw e' => e = e'
  | _, _ => False
  end.

(** Running the predicates of [stack] in order on [d], from the state [w]:
    the first one that fails is reached, all before it having passed, and
    leaves the state [w']. *)
Inductive first_failure (d : value)
  : list queryFilterCallback -> W -> W -> Prop :=
| failure_here f rest w r w' :
    f d w = (Ok r, w') -> truthy r = false ->
    first_failure d (f :: rest) w w'
| failure_later f rest w r w1 w' :
    f d w = (Ok r, w1) -> truthy r = true ->
    first_failure d rest w1 w' ->
    first_failure d (f :: rest) w w'.

Lemma not_closure_passes (stack : list queryFilterCallback) (d : value) (w w' : W) :
  not_closure stack d w = (Ok (VBool true), w') <-> first_failure d stack w w'.
Proof.
  revert w. induction stack as [| f stack IH]; intros w; simpl.
  - split; [intros H; discriminate H | intros H; inversion H].
  - unfold bind. split.
    + destruct (f d w) as [[r | e] w1] eqn:E; [| intros H; discriminate H].
      destruct (truthy r) eqn:T.
      * intros H. eapply failure_later; [exact E | exact T | apply IH, H].
      * intros H. injection H as <-. eapply failure_here; [exact E | exact T].
    + intros H. inversion H as [f0 rest w0 r w0' E T | f0 rest w0 r w1 w0' E T Hrest];
        subst; rewrite E, T; [reflexivity | apply IH, Hrest].
Qed.

(** C5. [_execQuery({$nor: Q})] on a document is the negation of
    [_execQuery({$or: Q})] on it, and [_execQuery({$not: q})] the negation of
    [_execQuery(q)]: each pair compiles alike, and on every document the two
    predicates return opposite booleans, or throw the same exception, leaving
    the same state. The predicate of [{$not: q}] returns true exactly when one
    of the predicates compiled from [q] fails, those before it having
    passed. *)
Theorem nor_not_duality (s : Schema) (Q q : value) :
  both (fun f g => forall d w, f d w = negated (g d w))
       (_execQuery s (VObj [("$nor", Q)])) (_execQuery s (VObj [("$or", Q)]))
  /\ both (fun f g => forall d w, f d w = negated (g d w))
          (_execQuery s (VObj [("$not", q)])) (_execQuery s q)
  /\ match _execQuery s (VObj [("$not", q)]), parseQuery (paths s) q with
     | Ok f, Ok stack =>
         forall d w w', f d w = (Ok (VBool true), w') <-> first_failure d stack w w'
     | Throw e, Throw e' => e = e'
     | _, _ => False
     end.
Proof.
  unfold _execQuery, execQuery, execQuery_open. rewrite !parseQuery_single.
  split; [| split].
  - cbn [parseQuery_step String.eqb Ascii.eqb Bool.eqb]. unfold op_nor, op_or.
    destruct (parseQueryArray (paths s) (parseQuery (paths s)) Q) as [stack | e];
      cbn [result_bind both app]; [| reflexivity].
    intros d w. rewrite !execQuery_closure_single.
    + apply nor_negates_or.
    + apply or_closure_boolean.
    + rewrite nor_negates_or. apply negated_boolean.
  - cbn [parseQuery_step String.eqb Ascii.eqb Bool.eqb]. unfold op_not.
    destruct (parseQuery (paths s) q) as [stack | e];
      cbn [result_bind both app]; [| reflexivity].
    intros d w. rewrite execQuery_closure_single.
    + apply not_negates_all.
    + rewrite not_negates_all. apply negated_boolean.
  - cbn [parseQuery_step String.eqb Ascii.eqb Bool.eqb]. unfold op_not.
    destruct (parseQuery (paths s) q) as [stack | e];
      cbn [result_bind app]; [| reflexivity].
    intros d w w'. rewrite execQuery_closure_single.
    + apply not_closure_passes.
    + rewrite not_negates_all. apply negated_boolean.
Qed.

(** The five keys [parseQuery] treats as clauses. *)
Definition is_clause (key : string) : bool :=
  existsb (String.eqb key) ["$and"; "$or"; "$nor"; "$not"; "$where"].











(** ** Operators are looked up when a closure runs *)

(** The compilers throw for one reason only: a sub-document whose keys are
    asked for is null or undefined. *)
Definition only_null_dereference {A} (r : result A) : Prop :=
  match r with
  | Ok _ => True
  | Throw e => e = TypeError NullDereference
  end.

Lemma op_and_loop_errors (paths : gmap string SchemaType) (elems : list value) :
  Forall (fun q => only_null_dereference (parseQuery paths q)) elems ->
  forall stack,
    only_null_dereference (op_and_loop (parseQuery paths) elems stack).
Proof.
  induction 1 as [| q rest Hq _ IH]; intros stack; simpl; [exact I |].
  unfold execQuery_open. destruct (parseQuery paths q) as [st | e]; simpl.
  - apply IH.
  - exact Hq.
Qed.

(** What the induction on a query carries: compiling it, and looping over it
    as [$and] does, throw for that reason only. *)
Definition query_compiles (paths : gmap string SchemaType) (q : value) : Prop :=
  only_null_dereference (parseQuery paths q)
  /\ forall stack, only_null_dereference (op_and paths (parseQuery paths) q stack).

Lemma op_and_element_errors (paths : gmap string SchemaType) (i : nat)
  (props : list (string * value)) :
  Forall (fun kv => query_compiles paths (snd kv)) props ->
  only_null_dereference (op_and_element (parseQuery paths) i props).
Proof.
  induction 1 as [| [key query] rest [Hq _] _ IH]; simpl; [reflexivity |].
  destruct (String.eqb key (index_key i)); [| exact IH].
  unfold execQuery_open. simpl in Hq.
  destruct (parseQuery paths query); [exact I | exact Hq].
Qed.

Lemma op_and_object_errors (paths : gmap string SchemaType)
  (props : list (string * value)) (len : value) :
  Forall (fun kv => query_compiles paths (snd kv)) props ->
  forall turns i stack,
    only_null_dereference (op_and_object (parseQuery paths) props len turns i stack).
Proof.
  intros Hprops turns.
  induction turns as [| turns IH]; intros i stack; simpl;
    destruct (less_than host (VNum (Z.of_nat i)) len) as [[|] |]; try exact I;
    pose proof (op_and_element_errors paths i props Hprops) as Hel;
    destruct (op_and_element (parseQuery paths) i props); simpl;
    try exact I; try exact Hel.
  apply IH.
Qed.

Lemma parseQuery_step_errors (paths : gmap string SchemaType)
  (key : string) (query : value) (stack : list queryFilterCallback) :
  query_compiles paths query ->
  only_null_dereference (parseQuery_step paths (parseQuery paths) key query stack).
Proof.
  intros [Hparse Hand]. unfold parseQuery_step, op_or, op_nor, op_not, parseQueryArray.
  repeat match goal with |- context [if ?b then _ else _] => destruct b end;
    try exact I.
  - apply Hand.
  - specialize (Hand []).
    destruct (op_and paths (parseQuery paths) query []); [exact I | exact Hand].
  - specialize (Hand []).
    destruct (op_and paths (parseQuery paths) query []); [exact I | exact Hand].
  - destruct (parseQuery paths query); [exact I | exact Hparse].
Qed.

Lemma parseQuery_loop_errors (paths : gmap string SchemaType)
  (props : list (string * value)) :
  Forall (fun kv => query_compiles paths (snd kv)) props ->
  forall stack,
    only_null_dereference (parseQuery_loop paths (parseQuery paths) props stack).
Proof.
  induction 1 as [| [key query] rest Hq _ IH]; intros stack; simpl; [exact I |].
  pose proof (parseQuery_step_errors paths key query stack Hq) as Hstep.
  destruct (parseQuery_step paths (parseQuery paths) key query stack); simpl.
  - apply IH.
  - exact Hstep.
Qed.

Lemma parseQuery_errors (paths : gmap string SchemaType) (q : value) :
  query_compiles paths q.
Proof.
  induction q as [| | b | n | str | f | elems IH | props IH] using value_nested_ind;
    split; intros; try exact I; try reflexivity.
  - simpl. apply op_and_loop_errors.
    eapply Forall_impl; [exact IH |]. intros x [Hx _]. exact Hx.
  - simpl. apply parseQuery_loop_errors. exact IH.
  - simpl. apply op_and_object_errors. exact IH.
Qed.

(** The same for updates. *)
Definition update_compiles (paths : gmap string SchemaType) (u : value) : Prop :=
  forall prefix stack, only_null_dereference (parseUpdate paths u prefix stack).

Lemma parseUpdate_step_errors (paths : gmap string SchemaType) (prefix : string)
  (i : nat) (key : string) (update : value) (stack : list queryCallback) :
  update_compiles paths update ->
  only_null_dereference
    (parseUpdate_step paths (parseUpdate paths) prefix i key update stack).
Proof.
  intros Hu. unfold parseUpdate_step, inline_operators.
  repeat match goal with |- context [if ?b then _ else _] => destruct b end;
    try exact I.
  - destruct update; simpl; try exact I; reflexivity.
  - apply Hu.
Qed.

Lemma parseUpdate_loop_errors (paths : gmap string SchemaType) (prefix : string)
  (entries : list (string * value)) :
  Forall (fun kv => update_compiles paths (snd kv)) entries ->
  forall i stack,
    only_null_dereference
      (parseUpdate_loop paths (parseUpdate paths) prefix i entries stack).
Proof.
  induction 1 as [| [key update] rest Hu _ IH]; intros i stack; simpl; [exact I |].
  pose proof (parseUpdate_step_errors paths prefix i key update stack Hu) as Hstep.
  destruct (parseUpdate_step paths (parseUpdate paths) prefix i key update stack);
    simpl; [apply IH | exact Hstep].
Qed.

Lemma parseUpdate_loop_indexed_errors (paths : gmap string SchemaType)
  (prefix : string) (elems : list value) :
  Forall (update_compiles paths) elems ->
  forall i stack,
    only_null_dereference
      (parseUpdate_loop_indexed paths (parseUpdate paths) prefix i elems stack).
Proof.
  induction 1 as [| update rest Hu _ IH]; intros i stack; simpl; [exact I |].
  pose proof (parseUpdate_step_errors paths prefix i (index_key i) update stack Hu)
    as Hstep.
  destruct (parseUpdate_step paths (parseUpdate paths) prefix i (index_key i)
              update stack); simpl; [apply IH | exact Hstep].
Qed.

Lemma parseUpdate_errors (paths : gmap string SchemaType) (u : value) :
  update_compiles paths u.
Proof.
  induction u as [| | b | n | str | f | elems IH | props IH] using value_nested_ind;
    intros prefix stack; try exact I; try reflexivity.
  - simpl. apply parseUpdate_loop_indexed_errors. exact IH.
  - simpl. apply parseUpdate_loop_errors. exact IH.
Qed.

(** [path] has no method of that name. *)
Definition lacks_q (path : target) (qkey : string) : Prop :=
  forall t, path = Typed t -> q_method t qkey = None.

Definition lacks_u (path : target) (ukey : string) : Prop :=
  forall t, path = Typed t -> u_method t ukey = None.

Lemma call_q_missing (path : target) (qkey : string) (val query data : value) (w : W) :
  lacks_q path qkey ->
  call_q path qkey val query data w = (Throw (TypeError NotCallable), w).
Proof.
  intros H. destruct path as [t |]; simpl; [| reflexivity].
  rewrite (H t eq_refl). reflexivity.
Qed.

Lemma call_u_missing (path : target) (ukey : string) (val update data : value) (w : W) :
  lacks_u path ukey ->
  call_u path ukey val update data w = (Throw (TypeError NotCallable), w).
Proof.
  intros H. destruct path as [t |]; simpl; [| reflexivity].
  rewrite (H t eq_refl). reflexivity.
Qed.

(** C2, as the code has it. Compiling a query or an update looks no operator
    up: it throws only for a sub-document that is null or undefined, never for
    a missing method. For the query [{K: {$op: v}}], and for the inline update
    [{$op: {field: v}}], whose path has no method [q$op] (or [u$op]), the
    compilers return a predicate (a mutator), and the TypeError of calling
    what is not a function is thrown each time that closure is applied to a
    document. *)
Theorem operators_are_looked_up_on_application (s : Schema) :
  (forall q, only_null_dereference (_execQuery s q))
  /\ (forall u, only_null_dereference (_parseUpdate s u))
  /\ (forall K op v,
        is_clause K = false ->
        starts_with_dollar op = true ->
        lacks_q (or_new (paths_get (paths s) K) (Some K)) ("q" +:+ op) ->
        exists f,
          _execQuery s (VObj [(K, VObj [(op, v)])]) = Ok f
          /\ forall d w, f d w = (Throw (TypeError NotCallable), w))
  /\ (forall op field v,
        starts_with_dollar op = true ->
        lacks_u (or_new (paths_get (paths s) field) (Some field)) ("u" +:+ op) ->
        exists m,
          _parseUpdate s (VObj [(op, VObj [(field, v)])]) = Ok [m]
          /\ forall d w, m d w = (Throw (TypeError NotCallable), w)).
Proof.
  split; [| split; [| split]].
  - intros q. unfold _execQuery, execQuery, execQuery_open.
    pose proof (proj1 (parseQuery_errors (paths s) q)) as H.
    destruct (parseQuery (paths s) q); [exact I | exact H].
  - intros u. apply parseUpdate_errors.
  - intros K op v HK Hop Hlacks.
    unfold _execQuery, execQuery, execQuery_open. rewrite parseQuery_single.
    unfold parseQuery_step. unfold is_clause in HK. simpl in HK.
    repeat (apply orb_false_elim in HK as [-> HK]).
    unfold parseQuery_default. simpl. rewrite Hop. simpl.
    eexists. split; [reflexivity |].
    intros d w. unfold bind, queryStackOperator.
    rewrite call_q_missing by exact Hlacks. reflexivity.
  - intros op field v Hop Hlacks.
    unfold _parseUpdate. simpl. unfold parseUpdate_step. rewrite Hop. simpl.
    unfold inline_operators. simpl. rewrite String.eqb_refl. simpl.
    eexists. split; [reflexivity |].
    intros d w. unfold updateStackOperator, bind. simpl.
    rewrite call_u_missing by exact Hlacks. reflexivity.
Qed.

(** ** Sorting *)











(** ** Population *)

(** The item has a path, and a model of its own or a registered path whose
    type gives one. *)
Definition resolvable (paths : gmap string SchemaType) (item : PopulateOptions)
  : Prop :=
  missing (item_path item) = false
  /\ (missing (item_model item) = false
      \/ exists key t, item_path item = Some key /\ paths !! key = Some t
                       /\ missing (type_ref t) = false).

(** The item has no path. *)
Definition lacks_path (item : PopulateOptions) : Prop :=
  missing (item_path item) = true.

(** The item has a path and no model, and the type registered at the path
    gives no [ref]. *)
Definition lacks_model (paths : gmap string SchemaType) (item : PopulateOptions)
  : Prop :=
  missing (item_path item) = false
  /\ missing (item_model item) = true
  /\ exists key t, item_path item = Some key /\ paths !! key = Some t
                   /\ missing (type_ref t) = true.


(** The descriptor of a resolvable item: its model, where missing, is the
    [ref] of the type at its path. *)
Definition filled (paths : gmap string SchemaType) (item : PopulateOptions)
  : PopulateOptions :=
  if missing (item_model item) then
    {| item_path := item_path item;
       item_model := match item_path item with
                     | Some key => match paths !! key with
                                   | Some t => type_ref t
                                   | None => None
                                   end
                     | None => None
                     end;
       item_rest := item_rest item |}
  else item.

Lemma paths_get_own (paths : gmap string SchemaType) (key : string) (t : SchemaType) :
  paths !! key = Some t -> paths_get paths key = Own t.
Proof. intros H. unfold paths_get. rewrite H. reflexivity. Qed.


Lemma populate_step_resolvable (paths : gmap string SchemaType) (item : PopulateOptions) :
  resolvable paths item -> populate_step paths item = Ok (filled paths item).
Proof.
  intros [Hpath Hmodel]. unfold populate_step, filled.
  destruct (item_path item) as [key |] eqn:Ekey; [| discriminate Hpath].
  simpl in Hpath. rewrite Hpath.
  destruct (missing (item_model item)) eqn:Em; [| reflexivity].
  destruct Hmodel as [Hm | (key' & t & Hk & Ht & Hr)]; [discriminate Hm |].
  injection Hk as <-. rewrite (paths_get_own _ _ _ Ht), Ht. simpl.
  rewrite Hr. reflexivity.
Qed.

Lemma populate_step_lacks_path (paths : gmap string SchemaType) (item : PopulateOptions) :
  lacks_path item ->
  populate_step paths item = Throw (PopulationError "path is required").
Proof.
  unfold lacks_path, populate_step.
  destruct (item_path item) as [key |]; simpl; [| reflexivity].
  intros ->. reflexivity.
Qed.

Lemma populate_step_lacks_model (paths : gmap string SchemaType) (item : PopulateOptions) :
  lacks_model paths item ->
  populate_step paths item = Throw (PopulationError "model is required").
Proof.
  intros (Hpath & Hm & key & t & Hk & Ht & Hr). unfold populate_step.
  rewrite Hk in *. simpl in Hpath. rewrite Hpath, Hm.
  rewrite (paths_get_own _ _ _ Ht). simpl. rewrite Hr. reflexivity.
Qed.


(** The items before the first offending one are passed over. *)
Lemma populate_loop_first_offender (paths : gmap string SchemaType)
  (pre : list PopulateOptions) (item : PopulateOptions) (post : list PopulateOptions)
  (e : error) :
  Forall (resolvable paths) pre ->
  populate_step paths item = Throw e ->
  populate_loop paths (pre ++ item :: post) = Throw e.
Proof.
  intros Hpre Hitem. induction Hpre as [| x pre Hx _ IH]; simpl.
  - rewrite Hitem. reflexivity.
  - rewrite (populate_step_resolvable _ _ Hx), IH. reflexivity.
Qed.

Lemma populate_loop_resolvable (paths : gmap string SchemaType)
  (arr : list PopulateOptions) :
  Forall (resolvable paths) arr ->
  populate_loop paths arr = Ok (map (filled paths) arr).
Proof.
  induction 1 as [| x arr Hx _ IH]; simpl; [reflexivity |].
  rewrite (populate_step_resolvable _ _ Hx), IH. reflexivity.
Qed.

(** C9, as the code has it. The items are taken in input order and the first
    one that cannot be resolved decides: without a path it raises
    PopulationError('path is required'); with a path, no model and a
    registered type that gives no [ref] it raises PopulationError('model is
    required'). When every item has a path and a model of its own or a
    registered path that gives a [ref], the result is one descriptor per item,
    in input order, a missing model filled in from that [ref]. *)
Theorem populate_descriptors_or_population_error (s : Schema) (expr : populate_expr) :
  (forall pre item post,
      populate_items expr = pre ++ item :: post ->
      Forall (resolvable (paths s)) pre ->
      (lacks_path item ->
       _parsePopulate s expr = Throw (PopulationError "path is required"))
      /\ (lacks_model (paths s) item ->
          _parsePopulate s expr = Throw (PopulationError "model is required")))
  /\ (Forall (resolvable (paths s)) (populate_items expr) ->
      _parsePopulate s expr = Ok (map (filled (paths s)) (populate_items expr))).
Proof.
  unfold _parsePopulate. split.
  - intros pre item post -> Hpre. split; intros H.
    + apply populate_loop_first_offender; [exact Hpre |].
      apply populate_step_lacks_path, H.
    + apply populate_loop_first_offender; [exact Hpre |].
      apply populate_step_lacks_model, H.
  - apply populate_loop_resolvable.
Qed.


(** ** Registration *)

(** Induction on declarations, through the arrays and the objects. *)
Section decl_induction.

Variable P : decl -> Prop.
Hypothesis P_undefined : P DUndefined.
Hypothesis P_null : P DNull.
Hypothesis P_bool : forall b, P (DBool b).
Hypothesis P_num : forall n, P (DNum n).
Hypothesis P_str : forall s, P (DStr s).
Hypothesis P_function : forall fname f, P (DFunction fname f).
Hypothesis P_instance : forall t, P (DInstance t).
Hypothesis P_array : forall elems, Forall P elems -> P (DArray elems).
Hypothesis P_object : forall props, Forall (fun kv => P (snd kv)) props -> P (DObject props).

Fixpoint decl_nested_ind (d : decl) : P d :=
  match d with
  | DUndefined => P_undefined
  | DNull => P_null
  | DBool b => P_bool b
  | DNum n => P_num n
  | DStr s => P_str s
  | DFunction fname f => P_function fname f
  | DInstance t => P_instance t
  | DArray elems =>
      P_array elems
        ((fix all (l : list decl) : Forall P l :=
            match l with
            | [] => List.Forall_nil P
            | x :: rest => List.Forall_cons P x rest (decl_nested_ind x) (all rest)
            end) elems)
  | DObject props =>
      P_object props
        ((fix all (l : list (string * decl)) : Forall (fun kv => P (snd kv)) l :=
            match l with
            | [] => List.Forall_nil _
            | kv :: rest =>
                List.Forall_cons (fun kv => P (snd kv)) kv rest
                  (decl_nested_ind (snd kv)) (all rest)
            end) props)
  end.

End decl_induction.

(** A registration step keeps the property [Q] of the schema, whether it
    returns or throws. *)
Definition preserves (Q : Schema -> Prop) {A} (m : R A) : Prop :=
  forall st, Q (fst st) -> Q (fst (snd (m st))).

Section Preservation.

Variable Q : Schema -> Prop.
Hypothesis Q_install : forall name type s, Q s -> Q (install name type s).

Lemma preserves_ret {A} (a : A) : preserves Q (ret a).
Proof. intros st H. exact H. Qed.

Lemma preserves_throw {A} (e : error) : preserves Q (@throw _ A e).
Proof. intros st H. exact H. Qed.

Lemma preserves_bind {A B} (m : R A) (k : A -> R B) :
  preserves Q m -> (forall a, preserves Q (k a)) -> preserves Q (bind m k).
Proof.
  intros Hm Hk st H. unfold bind. specialize (Hm st H).
  destruct (m st) as [[a | e] st1]; simpl in *; [apply Hk, Hm | exact Hm].
Qed.

Lemma preserves_on_host {A} (m : M A) : preserves Q (on_host m).
Proof.
  intros st H. unfold on_host. destruct (m (snd st)) as [r w]. exact H.
Qed.

Lemma preserves_install (name : string) (type : SchemaType) :
  preserves Q (update_schema (install name type)).
Proof. intros st H. simpl. apply Q_install, H. Qed.

Lemma add_open_preserves (this_path : string -> decl -> R (option slot))
  (schema : list (string * decl)) :
  Forall (fun kv => forall name, preserves Q (this_path name (snd kv))) schema ->
  forall prefix, preserves Q (add_open this_path schema prefix).
Proof.
  induction 1 as [| [key value] rest Hv _ IH]; intros prefix; simpl.
  - apply preserves_ret.
  - apply preserves_bind; [apply Hv | intros _; apply IH].
Qed.

Lemma path_preserves (obj : decl) : forall name, preserves Q (path name obj).
Proof.
  induction obj as [| | b | n | str | fname f | t | elems _ | props IH]
    using decl_nested_ind; intros name.
  - intros st H. exact H.
  - intros st H. exact H.
  - apply preserves_throw.
  - apply preserves_throw.
  - apply preserves_throw.
  - cbn [path]. apply preserves_bind; [apply preserves_on_host | intros type].
    apply preserves_bind; [apply preserves_install | intros _; apply preserves_ret].
  - cbn [path].
    apply preserves_bind; [apply preserves_install | intros _; apply preserves_ret].
  - cbn [path]. apply preserves_bind.
    + destruct elems; [apply preserves_ret | apply preserves_on_host].
    + intros child_. apply preserves_bind; [apply preserves_on_host | intros type].
      apply preserves_bind; [apply preserves_install | intros _; apply preserves_ret].
  - cbn [path]. destruct (type_of (DObject props)).
    + apply preserves_bind; [apply preserves_on_host | intros type].
      apply preserves_bind; [apply preserves_install | intros _; apply preserves_ret].
    + apply preserves_bind; [apply preserves_on_host | intros type].
      apply preserves_bind; [apply preserves_install | intros _].
      apply preserves_bind; [| intros _; apply preserves_ret].
      apply add_open_preserves. exact IH.
Qed.

Lemma add_preserves (schema : list (string * decl)) (prefix : string) :
  preserves Q (add schema prefix).
Proof.
  apply add_open_preserves, Forall_forall. intros kv _ name. apply path_preserves.
Qed.

Lemma virtual_preserves (name : string) (getter_ : value) :
  preserves Q (virtual name getter_).
Proof.
  unfold virtual. apply preserves_bind; [apply preserves_on_host | intros v].
  apply preserves_bind; [apply path_preserves | intros _; apply preserves_ret].
Qed.

End Preservation.

(** The four stacks have the same length. *)
Definition aligned (s : Schema) : Prop :=
  length (setter (stacks s)) = length (getter (stacks s))
  /\ length (import_ (stacks s)) = length (getter (stacks s))
  /\ length (export_ (stacks s)) = length (getter (stacks s)).

(** [paths] has at most as many keys as a stack has closures. *)
Definition bounded (s : Schema) : Prop :=
  size (paths s) <= length (getter (stacks s)).

Lemma install_aligned (name : string) (type : SchemaType) (s : Schema) :
  aligned s -> aligned (install name type s).
Proof.
  unfold aligned. simpl. rewrite !length_app. simpl. lia.
Qed.

Lemma install_bounded (name : string) (type : SchemaType) (s : Schema) :
  bounded s -> bounded (install name type s).
Proof.
  unfold bounded. simpl. rewrite length_app, map_size_insert. simpl.
  destruct (paths s !! name); unfold id; lia.
Qed.

(** Registering a name again replaces its type and lengthens the stacks. *)
Lemma install_again (name : string) (type : SchemaType) (s : Schema) :
  is_Some (paths s !! name) ->
  size (paths (install name type s)) = size (paths s)
  /\ length (getter (stacks (install name type s))) = S (length (getter (stacks s))).
Proof.
  intros [t Ht]. simpl. rewrite length_app, map_size_insert, Ht. simpl.
  unfold id. lia.
Qed.

(** The schemas a sequence of registration calls builds, each call returning
    or throwing. *)
Inductive registered : Schema -> Prop :=
| registered_new : registered Schema_empty
| registered_path (s : Schema) (w : W) (name : string) (obj : decl) :
    registered s -> registered (fst (snd (path name obj (s, w))))
| registered_add (s : Schema) (w : W) (schema : list (string * decl)) (prefix : string) :
    registered s -> registered (fst (snd (add schema prefix (s, w))))
| registered_virtual (s : Schema) (w : W) (name : string) (getter_ : value) :
    registered s -> registered (fst (snd (virtual name getter_ (s, w)))).

(** The names a declaration installs when [path] returns, in order. *)
Section Names.

Variable this_names : string -> decl -> list string.

Definition names_of_entries_open : list (string * decl) -> string -> list string :=
  fix loop (schema : list (string * decl)) (prefix : string) : list string :=
    match schema with
    | [] => []
    | (key, value) :: rest => this_names (prefix +:+ key) value ++ loop rest prefix
    end.

End Names.

Fixpoint names_of (name : string) (obj : decl) {struct obj} : list string :=
  match obj with
  | DUndefined | DNull | DBool _ | DNum _ | DStr _ => []
  | DFunction _ _ | DInstance _ | DArray _ => [name]
  | DObject props =>
      match type_of obj with
      | Some _ => [name]
      | None => name :: names_of_entries_open names_of props (name +:+ ".")
      end
  end.

Definition names_of_entries (schema : list (string * decl)) (prefix : string)
  : list string :=
  names_of_entries_open names_of schema prefix.

(** From [s] to [s'] exactly [names] were installed. *)
Definition grown (s : Schema) (names : list string) (s' : Schema) : Prop :=
  dom (paths s') = dom (paths s) ∪ list_to_set names
  /\ length (getter (stacks s')) = length (getter (stacks s)) + length names
  /\ length (setter (stacks s')) = length (setter (stacks s)) + length names
  /\ length (import_ (stacks s')) = length (import_ (stacks s)) + length names
  /\ length (export_ (stacks s')) = length (export_ (stacks s)) + length names.

Definition installs (names : list string) {A} (m : R A) : Prop :=
  forall st r st', m st = (Ok r, st') -> grown (fst st) names (fst st').

Lemma grown_refl (s : Schema) : grown s [] s.
Proof.
  unfold grown. simpl. rewrite union_empty_r_L. repeat split; lia.
Qed.

Lemma grown_trans (s1 s2 s3 : Schema) (n1 n2 : list string) :
  grown s1 n1 s2 -> grown s2 n2 s3 -> grown s1 (n1 ++ n2) s3.
Proof.
  unfold grown. intros (D1 & G1 & S1 & I1 & E1) (D2 & G2 & S2 & I2 & E2).
  rewrite list_to_set_app_L, length_app, D2, D1, G2, G1, S2, S1, I2, I1, E2, E1.
  repeat split; try lia. symmetry. apply (assoc_L (∪)).
Qed.

Lemma installs_ret {A} (a : A) : installs [] (ret a).
Proof. intros st r st' [= _ <-]. apply grown_refl. Qed.

Lemma installs_throw {A} (names : list string) (e : error) :
  installs names (@throw _ A e).
Proof. intros st r st' H. discriminate H. Qed.

Lemma installs_bind {A B} (n1 n2 names : list string) (m : R A) (k : A -> R B) :
  names = n1 ++ n2 ->
  installs n1 m -> (forall a, installs n2 (k a)) -> installs names (bind m k).
Proof.
  intros -> Hm Hk st r st' H. unfold bind in H.
  destruct (m st) as [[a | e] st1] eqn:E; [| discriminate H].
  eapply grown_trans; [eapply Hm, E | eapply Hk, H].
Qed.

Lemma installs_on_host {A} (m : M A) : installs [] (on_host m).
Proof.
  intros st r st' H. unfold on_host in H.
  destruct (m (snd st)) as [r' w]. injection H as _ <-. apply grown_refl.
Qed.

Lemma installs_install (name : string) (type : SchemaType) :
  installs [name] (update_schema (install name type)).
Proof.
  intros st r st' [= _ <-]. unfold grown. simpl.
  rewrite dom_insert_L, !length_app. simpl. rewrite union_empty_r_L.
  repeat split; try lia. apply (comm_L (∪)).
Qed.

Lemma add_open_installs (schema : list (string * decl)) :
  Forall (fun kv => forall name, installs (names_of name (snd kv)) (path name (snd kv)))
         schema ->
  forall prefix,
    installs (names_of_entries schema prefix) (add_open path schema prefix).
Proof.
  induction 1 as [| [key value] rest Hv _ IH]; intros prefix; simpl.
  - apply installs_ret.
  - eapply installs_bind; [reflexivity | apply Hv | intros _; apply IH].
Qed.

Lemma path_installs (obj : decl) :
  forall name, installs (names_of name obj) (path name obj).
Proof.
  induction obj as [| | b | n | str | fname f | t | elems _ | props IH]
    using decl_nested_ind; intros name.
  - intros st r st' [= _ <-]. apply grown_refl.
  - intros st r st' [= _ <-]. apply grown_refl.
  - apply installs_throw.
  - apply installs_throw.
  - apply installs_throw.
  - cbn [path names_of].
    eapply installs_bind; [| apply installs_on_host | intros type]; [reflexivity |].
    eapply installs_bind; [| apply installs_install | intros _; apply installs_ret].
    reflexivity.
  - cbn [path names_of].
    eapply installs_bind; [| apply installs_install | intros _; apply installs_ret].
    reflexivity.
  - cbn [path names_of].
    eapply (installs_bind [] [name]); [reflexivity | |].
    + destruct elems; [apply installs_ret | apply installs_on_host].
    + intros child_.
      eapply installs_bind; [| apply installs_on_host | intros type]; [reflexivity |].
      eapply installs_bind; [| apply installs_install | intros _; apply installs_ret].
      reflexivity.
  - cbn [path names_of]. destruct (type_of (DObject props)).
    + eapply installs_bind; [| apply installs_on_host | intros type]; [reflexivity |].
      eapply installs_bind; [| apply installs_install | intros _; apply installs_ret].
      reflexivity.
    + eapply installs_bind; [| apply installs_on_host | intros type]; [reflexivity |].
      eapply installs_bind; [| apply installs_install | intros _]; [reflexivity |].
      eapply installs_bind; [| apply add_open_installs, IH | intros _; apply installs_ret].
      rewrite app_nil_r. reflexivity.
Qed.

Lemma add_installs (schema : list (string * decl)) (prefix : string) :
  installs (names_of_entries schema prefix) (add schema prefix).
Proof.
  apply add_open_installs, Forall_forall. intros kv _ name. apply path_installs.
Qed.

(** Installing names that are pairwise distinct and new adds as many keys. *)
Lemma grown_fresh_size (s s' : Schema) (names : list string) :
  grown s names s' ->
  NoDup names ->
  (forall n, n ∈ names -> paths s !! n = None) ->
  size (paths s') = size (paths s) + length names.
Proof.
  intros (D & _) Hnodup Hfresh.
  rewrite <- (size_dom (D := gset string) (paths s')), D, size_union.
  - rewrite size_dom, size_list_to_set by exact Hnodup. reflexivity.
  - intros n Hin Hn. apply elem_of_list_to_set in Hn. apply Hfresh in Hn.
    apply elem_of_dom in Hin. rewrite Hn in Hin. destruct Hin as [t Ht]. discriminate Ht.
Qed.

(** C3, as the code has it. After every sequence of [path], [add] and
    [virtual] calls, returning or throwing, the four stacks have the same
    length and [paths] has at most that many keys. The two are equal as long
    as no name is installed twice and none is [__proto__] (which adds a
    closure to each stack and no key): an [add] that returns, and whose names
    are pairwise distinct, new to [paths] and not [__proto__], adds as many
    keys as it adds closures to each stack. Installing a name that [paths]
    has replaces its type and still appends to the stacks. *)
Theorem stacks_aligned_paths_bounded :
  (forall s, registered s -> aligned s /\ bounded s)
  /\ (forall schema prefix s w s' w',
        add schema prefix (s, w) = (Ok tt, (s', w')) ->
        "__proto__" ∉ names_of_entries schema prefix ->
        NoDup (names_of_entries schema prefix) ->
        (forall n, n ∈ names_of_entries schema prefix -> paths s !! n = None) ->
        size (paths s) = length (getter (stacks s)) ->
        size (paths s') = length (getter (stacks s'))
        /\ length (getter (stacks s'))
           = length (getter (stacks s)) + length (names_of_entries schema prefix))
  /\ (forall name type s,
        is_Some (paths s !! name) ->
        size (paths (install name type s)) = size (paths s)
        /\ length (getter (stacks (install name type s)))
           = S (length (getter (stacks s)))).
Proof.
  split; [| split].
  - assert (Hinstall : forall name type s,
               aligned s /\ bounded s -> aligned (install name type s)
                                         /\ bounded (install name type s)).
    { intros name type s [Ha Hb].
      split; [apply install_aligned, Ha | apply install_bounded, Hb]. }
    induction 1 as [| s w name obj _ IH | s w schema prefix _ IH | s w name g _ IH].
    + split; [repeat split | unfold bounded; simpl; rewrite map_size_empty; lia].
    + exact (path_preserves _ Hinstall obj name (s, w) IH).
    + exact (add_preserves _ Hinstall schema prefix (s, w) IH).
    + exact (virtual_preserves _ Hinstall name g (s, w) IH).
  - intros schema prefix s w s' w' Hadd _ Hnodup Hfresh Heq.
    pose proof (add_installs schema prefix _ _ _ Hadd) as Hgrown. simpl in Hgrown.
    pose proof (grown_fresh_size _ _ _ Hgrown Hnodup Hfresh) as Hsize.
    destruct Hgrown as (_ & Hg & _). lia.
  - apply install_again.
Qed.

(** ** The inline form of an update *)

(** For the first key of an update, every closure the inline form pushes is
    the one of the first field: there are as many as fields, all alike. *)
Lemma inline_form_repeats_one_field (paths : gmap string SchemaType)
  (op f1 : string) (v1 : value) (rest : list (string * value)) :
  starts_with_dollar op = true ->
  parseUpdate paths (VObj [(op, VObj ((f1, v1) :: rest))]) "" []
  = Ok (replicate (S (length rest))
          (updateStackOperator (paths_get paths f1) ("u" +:+ op) (Some f1) v1)).
Proof.
  intros Hop. simpl. unfold parseUpdate_step. rewrite Hop. simpl.
  unfold inline_operators. simpl. rewrite String.eqb_refl, length_map. reflexivity.
Qed.


(** * Further properties *)

(** ** Strings *)

Lemma append_dot_nonempty (s : string) : String.eqb (s +:+ ".") "" = false.
Proof. destruct s; reflexivity. Qed.

Lemma drop_last_append_dot (s : string) : drop_last (s +:+ ".") = s.
Proof.
  induction s as [| c s IH]; [reflexivity |].
  simpl. rewrite IH. destruct s; reflexivity.
Qed.

Lemma append_length (s1 s2 : string) :
  String.length (s1 +:+ s2) = String.length s1 + String.length s2.
Proof. induction s1 as [| c s1 IH]; simpl; [reflexivity | rewrite IH; reflexivity]. Qed.

(** ** Updates without operators *)

(** The leaves of a document of nested plain objects, each with the dotted
    path of the keys that lead to it, in document order. *)
Section Leaves.

Variable this_leaves : string -> value -> list (string * value).

Definition leaves_entries : string -> list (string * value) -> list (string * value) :=
  fix loop (prefix : string) (props : list (string * value)) {struct props} :=
    match props with
    | [] => []
    | (key, x) :: rest =>
        match x with
        | VObj _ => this_leaves ((prefix +:+ key) +:+ ".") x
        | _ => [(prefix +:+ key, x)]
        end ++ loop prefix rest
    end.

End Leaves.

Fixpoint leaves (prefix : string) (v : value) {struct v} : list (string * value) :=
  match v with
  | VObj props => leaves_entries leaves prefix props
  | _ => []
  end.

(** No key of the document, at any depth of its plain objects, begins with
    a dollar. *)
Section OperatorFree.

Variable this_free : value -> bool.


End OperatorFree.







(** ** The two operator forms *)

(** X2. For an operator [$op] and a field [f] that is no operator, the form
    [{f: {$op: v}}] and, as the first key of the update, the inline form
    [{$op: {f: v}}] compile to the same single closure: [u$op] on the type at
    [f], with argument [v], written back at [f]. *)
Theorem first_class_and_inline_forms_agree (s : Schema) (op f : string) (v : value) :
  starts_with_dollar op = true ->
  starts_with_dollar f = false ->
  _parseUpdate s (VObj [(f, VObj [(op, v)])])
  = Ok [updateStackOperator (paths_get (paths s) f) ("u" +:+ op) (Some f) v]
  /\ _parseUpdate s (VObj [(op, VObj [(f, v)])])
     = _parseUpdate s (VObj [(f, VObj [(op, v)])]).
Proof.
  intros Hop Hf.
  assert (H1 : _parseUpdate s (VObj [(f, VObj [(op, v)])])
               = Ok [updateStackOperator (paths_get (paths s) f) ("u" +:+ op) (Some f) v]).
  { unfold _parseUpdate. simpl. unfold parseUpdate_step at 1. rewrite Hf. simpl.
    unfold parseUpdate_step. rewrite Hop.
    change (String.append f ".") with (f +:+ ".").
    rewrite append_dot_nonempty, drop_last_append_dot. reflexivity. }
  split; [exact H1 |].
  rewrite H1. unfold _parseUpdate.
  apply inline_form_repeats_one_field with (rest := []). exact Hop.
Qed.

(** ** When compiling an update throws *)







(** ** The update operators of the base type *)



(** ** Queries compose *)

(** The compilers push onto the stack they are given and never read it. *)
Lemma parseNormalQuery_app (paths : gmap string SchemaType) (q : value) :
  forall prefix stack,
    parseNormalQuery paths q prefix stack
    = stack ++ parseNormalQuery paths q prefix [].
Proof.
  induction q as [| | b | n | str | f | elems _ | props IH] using value_nested_ind;
    intros prefix stack; simpl; try (rewrite app_nil_r; reflexivity).
  revert stack.
  assert (Hloop : forall stack0 stack,
    (fix loop (props : list (string * value)) (stack : list queryFilterCallback)
       : list queryFilterCallback :=
       match props with
       | [] => stack
       | (key, query) :: rest =>
           if starts_with_dollar key
           then loop rest (stack ++ [queryStackOperator paths ("q" +:+ key) prefix query])
           else
             match query with
             | VObj _ => loop rest (parseNormalQuery paths query (prefix +:+ "." +:+ key) stack)
             | _ => loop rest (stack ++ [queryStackNormal paths (prefix +:+ "." +:+ key) query])
             end
       end) props (stack0 ++ stack)
    = stack0 ++
      (fix loop (props : list (string * value)) (stack : list queryFilterCallback)
         : list queryFilterCallback :=
         match props with
         | [] => stack
         | (key, query) :: rest =>
             if starts_with_dollar key
             then loop rest (stack ++ [queryStackOperator paths ("q" +:+ key) prefix query])
             else
               match query with
               | VObj _ => loop rest (parseNormalQuery paths query (prefix +:+ "." +:+ key) stack)
               | _ => loop rest (stack ++ [queryStackNormal paths (prefix +:+ "." +:+ key) query])
               end
         end) props stack).
  { induction IH as [| [key x] rest Hx _ IHrest]; intros stack0 stack; [reflexivity |].
    cbn [snd] in Hx. cbn -[parseNormalQuery].
    destruct (starts_with_dollar key).
    - rewrite <- app_assoc. apply IHrest.
    - destruct x; try (rewrite <- app_assoc; apply IHrest).
      rewrite (Hx _ (stack0 ++ stack)), (Hx _ stack), <- app_assoc. apply IHrest. }
  intros stack. rewrite <- (app_nil_r stack) at 1. apply Hloop.
Qed.

Lemma op_and_loop_app (this_parseQuery : value -> result (list queryFilterCallback))
  (elems : list value) :
  forall stack,
    op_and_loop this_parseQuery elems stack
    = let+ pushed := op_and_loop this_parseQuery elems [] in Ok (stack ++ pushed).
Proof.
  assert (H : forall stack0 stack,
    op_and_loop this_parseQuery elems (stack0 ++ stack)
    = let+ l := op_and_loop this_parseQuery elems stack in Ok (stack0 ++ l)).
  { induction elems as [| q rest IH]; intros stack0 stack; simpl; [reflexivity |].
    destruct (execQuery_open this_parseQuery q) as [f | e]; simpl; [| reflexivity].
    rewrite <- app_assoc. apply IH. }
  intros stack. rewrite <- (app_nil_r stack) at 1. apply H.
Qed.

Lemma op_and_object_app (this_parseQuery : value -> result (list queryFilterCallback))
  (props : list (string * value)) (len : value) (turns : nat) :
  forall i stack,
    op_and_object this_parseQuery props len turns i stack
    = let+ pushed := op_and_object this_parseQuery props len turns i [] in
      Ok (stack ++ pushed).
Proof.
  assert (H : forall i stack0 stack,
    op_and_object this_parseQuery props len turns i (stack0 ++ stack)
    = let+ l := op_and_object this_parseQuery props len turns i stack in
      Ok (stack0 ++ l)).
  { induction turns as [| turns IH]; intros i stack0 stack; simpl;
      destruct (less_than host (VNum (Z.of_nat i)) len) as [[|] |]; try reflexivity;
      destruct (op_and_element this_parseQuery i props) as [f | e]; simpl;
      try reflexivity; rewrite <- app_assoc; [reflexivity | apply IH]. }
  intros i stack. rewrite <- (app_nil_r stack) at 1. apply H.
Qed.

Lemma parseQuery_step_app (paths : gmap string SchemaType)
  (this_parseQuery : value -> result (list queryFilterCallback))
  (key : string) (query : value) (stack : list queryFilterCallback) :
  parseQuery_step paths this_parseQuery key query stack
  = let+ pushed := parseQuery_step paths this_parseQuery key query [] in
    Ok (stack ++ pushed).
Proof.
  unfold parseQuery_step.
  destruct (String.eqb key "$and").
  { unfold op_and.
    destruct query; try apply op_and_loop_app; try apply op_and_object_app;
      simpl; try reflexivity; rewrite app_nil_r; reflexivity. }
  destruct (String.eqb key "$or");
    [destruct (op_or paths this_parseQuery query); reflexivity |].
  destruct (String.eqb key "$nor");
    [destruct (op_nor paths this_parseQuery query); reflexivity |].
  destruct (String.eqb key "$not");
    [destruct (op_not this_parseQuery query); reflexivity |].
  destruct (String.eqb key "$where"); [reflexivity |].
  cbn [result_bind]. unfold parseQuery_default.
  destruct (isPlainObject query); [| reflexivity].
  f_equal. apply parseNormalQuery_app.
Qed.

Lemma parseQuery_loop_app (paths : gmap string SchemaType)
  (this_parseQuery : value -> result (list queryFilterCallback))
  (props : list (string * value)) :
  forall stack,
    parseQuery_loop paths this_parseQuery props stack
    = let+ pushed := parseQuery_loop paths this_parseQuery props [] in
      Ok (stack ++ pushed).
Proof.
  assert (H : forall stack0 stack,
    parseQuery_loop paths this_parseQuery props (stack0 ++ stack)
    = let+ l := parseQuery_loop paths this_parseQuery props stack in Ok (stack0 ++ l)).
  { induction props as [| [key q] rest IH]; intros stack0 stack; simpl; [reflexivity |].
    rewrite (parseQuery_step_app _ _ _ _ (stack0 ++ stack)),
      (parseQuery_step_app _ _ _ _ stack).
    destruct (parseQuery_step paths this_parseQuery key q []) as [l | e]; simpl;
      [| reflexivity].
    rewrite <- app_assoc. apply IH. }
  intros stack. rewrite <- (app_nil_r stack) at 1. apply H.
Qed.

Lemma parseQuery_loop_split (paths : gmap string SchemaType)
  (this_parseQuery : value -> result (list queryFilterCallback))
  (p1 p2 : list (string * value)) :
  forall stack,
    parseQuery_loop paths this_parseQuery (p1 ++ p2) stack
    = let+ stack' := parseQuery_loop paths this_parseQuery p1 stack in
      parseQuery_loop paths this_parseQuery p2 stack'.
Proof.
  induction p1 as [| [key q] rest IH]; intros stack; simpl; [reflexivity |].
  destruct (parseQuery_step paths this_parseQuery key q stack) as [l | e]; simpl;
    [apply IH | reflexivity].
Qed.

(** The filter of two stacks in a row is the filter of the two filters. *)
Lemma execQuery_closure_seq (l1 l2 : list queryFilterCallback) (d : value) (w : W) :
  execQuery_closure (l1 ++ l2) d w
  = (let* r := execQuery_closure l1 d in
     if truthy r then execQuery_closure l2 d else ret (VBool false)) w.
Proof.
  revert w. induction l1 as [| f l1 IH]; intros w; [reflexivity |].
  cbn [app execQuery_closure]. unfold bind at 1 2 3.
  destruct (f d w) as [[r | e] w']; [| reflexivity].
  destruct (truthy r); [| reflexivity].
  rewrite IH. reflexivity.
Qed.

Lemma execQuery_closure_app (l1 l2 : list queryFilterCallback) (d : value) (w : W) :
  execQuery_closure (l1 ++ l2) d w
  = execQuery_closure [execQuery_closure l1; execQuery_closure l2] d w.
Proof.
  rewrite execQuery_closure_seq.
  remember (execQuery_closure l1) as f1 eqn:E1.
  change (execQuery_closure [f1; execQuery_closure l2] d w)
    with ((let* r := f1 d in
           if truthy r then execQuery_closure [execQuery_closure l2] d
           else ret (VBool false)) w).
  unfold bind at 1 2. destruct (f1 d w) as [[r | e] w']; [| reflexivity].
  destruct (truthy r); [| reflexivity].
  symmetry. apply execQuery_closure_single, execQuery_closure_boolean.
Qed.

(** Two filters that agree on every document and state. *)
Definition same_filter (f g : queryFilterCallback) : Prop :=
  forall d w, f d w = g d w.

(** X5. A query is the conjunction of its parts: the filter of the object
    with the keys of [p1] followed by those of [p2] is the filter of
    [{$and: [p1, p2]}], and, where both parts compile, it runs the filter of
    [p1] and then, if that passed, the filter of [p2]. If one part fails to
    compile, the whole fails with the exception of the first that does. *)
Theorem query_is_conjunction_of_its_parts (s : Schema)
  (p1 p2 : list (string * value)) :
  both same_filter
       (_execQuery s (VObj (p1 ++ p2)))
       (_execQuery s (VObj [("$and", VArr [VObj p1; VObj p2])]))
  /\ match _execQuery s (VObj p1), _execQuery s (VObj p2) with
     | Ok f1, Ok f2 =>
         both same_filter (_execQuery s (VObj (p1 ++ p2)))
              (Ok (execQuery_closure [f1; f2]))
     | Throw e, _ | Ok _, Throw e => _execQuery s (VObj (p1 ++ p2)) = Throw e
     end.
Proof.
  unfold _execQuery, execQuery, execQuery_open.
  rewrite parseQuery_single.
  cbn [parseQuery_step String.eqb Ascii.eqb Bool.eqb op_and op_and_loop].
  unfold execQuery_open. cbn [parseQuery].
  rewrite parseQuery_loop_split.
  destruct (parseQuery_loop (paths s) (parseQuery (paths s)) p1 []) as [l1 | e1];
    cbn [result_bind both app]; [| split; reflexivity].
  rewrite parseQuery_loop_app.
  destruct (parseQuery_loop (paths s) (parseQuery (paths s)) p2 []) as [l2 | e2];
    cbn [result_bind both app]; [| split; reflexivity].
  split; intros d w; apply execQuery_closure_app.
Qed.

(** X6. [$and] and [$or] of a single query are that query: all three compile
    alike and give filters that agree on every document. *)
Theorem single_alternative_is_the_query (s : Schema) (q : value) :
  both same_filter (_execQuery s (VObj [("$and", VArr [q])])) (_execQuery s q)
  /\ both same_filter (_execQuery s (VObj [("$or", VArr [q])])) (_execQuery s q).
Proof.
  unfold _execQuery, execQuery, execQuery_open.
  rewrite !parseQuery_single.
  cbn [parseQuery_step String.eqb Ascii.eqb Bool.eqb op_and op_and_loop].
  unfold op_or, parseQueryArray. cbn [op_and op_and_loop]. unfold execQuery_open.
  destruct (parseQuery (paths s) q) as [l | e]; cbn [result_bind both app];
    [| split; reflexivity].
  split; intros d w.
  - apply execQuery_closure_single, execQuery_closure_boolean.
  - rewrite execQuery_closure_single; [| apply or_closure_boolean].
    cbn [or_closure]. unfold bind, ret.
    pose proof (execQuery_closure_boolean l d w) as Hb. unfold boolean_outcome in Hb.
    destruct (execQuery_closure l d w) as [[r | e] w']; simpl in *; [| reflexivity].
    destruct r; try contradiction. destruct b; reflexivity.
Qed.

(** ** When compiling a query throws *)





Section QueryThrows.

Variable this_throws : value -> bool.





End QueryThrows.


Definition throws_or_compiles {A} (throws : bool) (r : result A) : Prop :=
  if throws then r = Throw (TypeError NullDereference) else exists a, r = Ok a.










(** ** The query operators of the base type *)






(** ** Sort orders *)

(** A sort order in which whatever is nested is a plain object: no array and
    no [null] stands for a direction. *)
Section PlainlyNested.

Variable this_nested : value -> bool.

Definition plainly_nested_entries : list (string * value) -> bool :=
  fix loop (props : list (string * value)) :=
    match props with
    | [] => true
    | (key, x) :: rest =>
        match x with
        | VObj _ => this_nested x
        | VArr _ | VNull => false
        | _ => true
        end && loop rest
    end.

End PlainlyNested.

Fixpoint plainly_nested (v : value) : bool :=
  match v with
  | VObj props => plainly_nested_entries plainly_nested props
  | _ => true
  end.

Definition comparators_of (paths : gmap string SchemaType)
  (l : list (string * value)) : list queryParseCallback :=
  map (fun nv => sortStack (paths_get paths (fst nv)) (fst nv) (snd nv)) l.

Definition sort_flattens (paths : gmap string SchemaType) (sorts : value) : Prop :=
  forall prefix stack,
    plainly_nested sorts = true ->
    _parseSort paths sorts prefix stack
    = Ok (stack ++ comparators_of paths (leaves prefix sorts)).

Lemma parseSort_loop_flattens (paths : gmap string SchemaType)
  (props : list (string * value)) :
  Forall (fun kv => isPlainObject (snd kv) = true -> sort_flattens paths (snd kv)) props ->
  forall prefix stack,
    plainly_nested_entries plainly_nested props = true ->
    parseSort_loop paths (_parseSort paths) prefix props stack
    = Ok (stack ++ comparators_of paths (leaves_entries leaves prefix props)).
Proof.
  induction 1 as [| [key x] rest Hx _ IH]; intros prefix stack Hnested; simpl.
  - rewrite app_nil_r. reflexivity.
  - simpl in Hnested, Hx. apply andb_prop in Hnested as [Hhere Hrest].
    unfold parseSort_step, comparators_of. rewrite map_app. fold (comparators_of paths).
    destruct (isPlainObject x) eqn:Hplain.
    + assert (Hobj : typeof_object x = true)
        by (destruct x; try discriminate Hplain; reflexivity).
      rewrite Hobj.
      assert (Hnx : plainly_nested x = true)
        by (destruct x; try discriminate Hplain; exact Hhere).
      rewrite (Hx eq_refl _ _ Hnx). cbn [result_bind].
      rewrite (IH prefix _ Hrest), <- app_assoc.
      destruct x; try discriminate Hplain. reflexivity.
    + assert (Hobj : typeof_object x = false)
        by (destruct x; try discriminate Hplain; try discriminate Hhere; reflexivity).
      rewrite Hobj. cbn [result_bind].
      rewrite (IH prefix _ Hrest), <- app_assoc.
      destruct x; try discriminate Hplain; reflexivity.
Qed.

Lemma parseSort_flattens (paths : gmap string SchemaType) (sorts : value) :
  isPlainObject sorts = true -> sort_flattens paths sorts.
Proof.
  induction sorts as [| | b | n | str | f | elems _ | props IH] using value_nested_ind;
    intros Hplain; try discriminate Hplain.
  intros prefix stack Hnested. simpl. apply parseSort_loop_flattens; assumption.
Qed.

(** X9. A sort order of nested plain objects compiles to one comparator per
    leaf, in document order, on the dotted path of the keys that lead to it
    and with the leaf as its direction; an empty nested object gives none.
    A nested and a dotted spelling with the same leaves give the same
    comparator. *)
Theorem nested_sort_is_dotted_sort (s : Schema) (props : list (string * value)) :
  plainly_nested (VObj props) = true ->
  _parseSort (paths s) (VObj props) "" []
  = Ok (comparators_of (paths s) (leaves "" (VObj props)))
  /\ forall props',
      plainly_nested (VObj props') = true ->
      leaves "" (VObj props') = leaves "" (VObj props) ->
      _execSort (paths s) (VObj props') = _execSort (paths s) (VObj props).
Proof.
  intros Hnested. split.
  - apply (parseSort_flattens (paths s) (VObj props) eq_refl "" [] Hnested).
  - intros props' Hnested' Hleaves. unfold _execSort.
    rewrite (parseSort_flattens (paths s) (VObj props') eq_refl "" [] Hnested').
    rewrite (parseSort_flattens (paths s) (VObj props) eq_refl "" [] Hnested).
    rewrite Hleaves. reflexivity.
Qed.

(** Whether [null] stands for a direction, at any depth of the nested
    objects and arrays, or the sort order itself is [null] or [undefined]. *)
Section SortThrows.

Variable this_throws : value -> bool.

Definition direction_throws (sort : value) : bool :=
  typeof_object sort && this_throws sort.

Definition sort_entries_throw : list (string * value) -> bool :=
  fix loop (props : list (string * value)) :=
    match props with
    | [] => false
    | (key, sort) :: rest => direction_throws sort || loop rest
    end.

Definition sort_elements_throw : list value -> bool :=
  fix loop (elems : list value) :=
    match elems with
    | [] => false
    | sort :: rest => direction_throws sort || loop rest
    end.

End SortThrows.

Fixpoint sort_throws (sorts : value) : bool :=
  match sorts with
  | VUndefined | VNull => true
  | VObj props => sort_entries_throw sort_throws props
  | VArr elems => sort_elements_throw sort_throws elems
  | _ => false
  end.

Definition sort_settled (paths : gmap string SchemaType) (sorts : value) : Prop :=
  forall prefix stack,
    throws_or_compiles (sort_throws sorts) (_parseSort paths sorts prefix stack).

Lemma parseSort_step_settled (paths : gmap string SchemaType)
  (prefix key : string) (sort : value) (stack : list queryParseCallback) :
  sort_settled paths sort ->
  throws_or_compiles (direction_throws sort_throws sort)
    (parseSort_step paths (_parseSort paths) prefix key sort stack).
Proof.
  intros H. unfold parseSort_step, direction_throws.
  destruct (typeof_object sort); [apply H | eexists; reflexivity].
Qed.

Lemma parseSort_settled (paths : gmap string SchemaType) (sorts : value) :
  sort_settled paths sorts.
Proof.
  induction sorts as [| | b | n | str | f | elems IH | props IH]
    using value_nested_ind; intros prefix stack;
    try (simpl; try reflexivity; eexists; reflexivity).
  - cbn [_parseSort sort_throws]. generalize 0 as i. revert stack.
    induction IH as [| x rest Hx _ IHrest]; intros stack i.
    + eexists. reflexivity.
    + pose proof (parseSort_step_settled paths prefix (index_key i) x stack Hx) as H.
      cbn [parseSort_loop_indexed sort_elements_throw].
      unfold throws_or_compiles in H.
      destruct (direction_throws sort_throws x); cbn [orb].
      * rewrite H. reflexivity.
      * destruct H as [l ->]. apply IHrest.
  - cbn [_parseSort sort_throws]. revert stack.
    induction IH as [| [key x] rest Hx _ IHrest]; intros stack.
    + eexists. reflexivity.
    + cbn [snd] in Hx.
      pose proof (parseSort_step_settled paths prefix key x stack Hx) as H.
      cbn [parseSort_loop sort_entries_throw].
      unfold throws_or_compiles in H.
      destruct (direction_throws sort_throws x); cbn [orb].
      * rewrite H. reflexivity.
      * destruct H as [l ->]. apply IHrest.
Qed.

(** X10. Compiling a sort order throws exactly when [null] stands for a
    direction, at any depth of the nested objects and arrays, or the sort
    order itself is [null] or [undefined]; what it throws is a TypeError. An
    [undefined] direction does not throw: it sorts ascending. *)
Theorem sort_compile_throws_iff_null_direction (s : Schema) (sorts : value) :
  (if sort_throws sorts
   then _execSort (paths s) sorts = Throw (TypeError NullDereference)
   else exists compare, _execSort (paths s) sorts = Ok compare)
  /\ forall key, exists compare,
      _execSort (paths s) (VObj [(key, VUndefined)]) = Ok compare
      /\ forall a b w,
          compare a b w
          = (let* r := call_compare (or_new (paths_get (paths s) key) (Some key))
                         (getProp a key) (getProp b key) in
             ret (VNum r)) w.
Proof.
  split.
  - pose proof (parseSort_settled (paths s) sorts "" []) as H.
    unfold _execSort, throws_or_compiles in *.
    destruct (sort_throws sorts);
      [rewrite H; reflexivity | destruct H as [l ->]; eexists; reflexivity].
  - intros key. eexists. split; [reflexivity |].
    intros a b w. unfold execSortStack.
    cbn [app String.append execSortStack_loop]. unfold sortStack, bind, ret.
    destruct (call_compare _ _ _ w) as [[r | e] w']; [| reflexivity].
    cbn [is_descending strict_equal orb directed andb].
    destruct (truthy (VNum r)); reflexivity.
Qed.

(** ** What a registration leaves in the schema *)

(** Installing a list of types under their names, in order. *)
Definition install_all (l : list (string * SchemaType)) (s : Schema) : Schema :=
  fold_left (fun s nt => install (fst nt) (snd nt) s) l s.

(** A registration step installs types under the names [names], in that
    order, when it returns, and under the first few of them when it throws:
    what was installed before the exception stays. *)
Definition registers (names : list string) {A} (m : R A) : Prop :=
  forall st, exists l,
    fst (snd (m st)) = install_all l (fst st)
    /\ match fst (m st) with
       | Ok _ => map fst l = names
       | Throw _ => exists rest, names = map fst l ++ rest
       end.

Lemma registers_ret {A} (a : A) : registers [] (ret a).
Proof. intros st. exists []. split; reflexivity. Qed.

Lemma registers_throw {A} (names : list string) (e : error) :
  registers names (@throw _ A e).
Proof. intros st. exists []. split; [reflexivity | exists names; reflexivity]. Qed.

Lemma registers_bind {A B} (n1 n2 names : list string) (m : R A) (k : A -> R B) :
  names = n1 ++ n2 ->
  registers n1 m -> (forall a, registers n2 (k a)) -> registers names (bind m k).
Proof.
  intros -> Hm Hk st. unfold bind.
  destruct (Hm st) as (l1 & Hs1 & Hr1).
  destruct (m st) as [[a | e] st1]; simpl in Hs1, Hr1.
  - destruct (Hk a st1) as (l2 & Hs2 & Hr2).
    exists (l1 ++ l2). split.
    + rewrite Hs2, Hs1. unfold install_all. rewrite fold_left_app. reflexivity.
    + rewrite map_app. destruct (fst (k a st1)).
      * rewrite Hr1, Hr2. reflexivity.
      * destruct Hr2 as [rest ->]. exists rest. rewrite Hr1, app_assoc. reflexivity.
  - exists l1. split; [exact Hs1 |].
    destruct Hr1 as [rest ->]. exists (rest ++ n2). rewrite app_assoc. reflexivity.
Qed.

Lemma registers_on_host {A} (m : M A) : registers [] (on_host m).
Proof.
  intros st. exists []. unfold on_host. destruct (m (snd st)) as [[a | e] w]; simpl.
  - split; reflexivity.
  - split; [reflexivity | exists []; reflexivity].
Qed.

Lemma registers_install (name : string) (type : SchemaType) :
  registers [name] (update_schema (install name type)).
Proof. intros st. exists [(name, type)]. split; reflexivity. Qed.

Lemma add_open_registers (schema : list (string * decl)) :
  Forall (fun kv => forall name, registers (names_of name (snd kv)) (path name (snd kv)))
         schema ->
  forall prefix,
    registers (names_of_entries schema prefix) (add_open path schema prefix).
Proof.
  induction 1 as [| [key value] rest Hv _ IH]; intros prefix; simpl.
  - apply registers_ret.
  - eapply registers_bind; [reflexivity | apply Hv | intros _; apply IH].
Qed.

Lemma path_registers (obj : decl) :
  forall name, registers (names_of name obj) (path name obj).
Proof.
  induction obj as [| | b | n | str | fname f | t | elems _ | props IH]
    using decl_nested_ind; intros name.
  - intros st. exists []. split; reflexivity.
  - intros st. exists []. split; reflexivity.
  - apply registers_throw.
  - apply registers_throw.
  - apply registers_throw.
  - cbn [path names_of].
    eapply registers_bind; [| apply registers_on_host | intros type]; [reflexivity |].
    eapply registers_bind; [| apply registers_install | intros _; apply registers_ret].
    reflexivity.
  - cbn [path names_of].
    eapply registers_bind; [| apply registers_install | intros _; apply registers_ret].
    reflexivity.
  - cbn [path names_of].
    eapply (registers_bind [] [name]); [reflexivity | |].
    + destruct elems; [apply registers_ret | apply registers_on_host].
    + intros child_.
      eapply registers_bind; [| apply registers_on_host | intros type]; [reflexivity |].
      eapply registers_bind; [| apply registers_install | intros _; apply registers_ret].
      reflexivity.
  - cbn [path names_of]. destruct (type_of (DObject props)).
    + eapply registers_bind; [| apply registers_on_host | intros type]; [reflexivity |].
      eapply registers_bind; [| apply registers_install | intros _; apply registers_ret].
      reflexivity.
    + eapply registers_bind; [| apply registers_on_host | intros type]; [reflexivity |].
      eapply registers_bind; [| apply registers_install | intros _]; [reflexivity |].
      eapply registers_bind; [| apply add_open_registers, IH | intros _; apply registers_ret].
      rewrite app_nil_r. reflexivity.
Qed.

Lemma add_registers (schema : list (string * decl)) (prefix : string) :
  registers (names_of_entries schema prefix) (add schema prefix).
Proof.
  apply add_open_registers, Forall_forall. intros kv _ name. apply path_registers.
Qed.

(** X11. [add] installs a type under each name of the declaration, a nested
    object before its children and the entries in document order, and
    nothing else; it does not undo what it did when it throws: the schema
    then keeps the types installed before the exception, under the first few
    of those names. The same holds of [path] called with a declaration. *)
Theorem add_installs_names_in_order (s : Schema) (w : W) :
  (forall schema prefix,
      exists l,
        fst (snd (add schema prefix (s, w))) = install_all l s
        /\ match fst (add schema prefix (s, w)) with
           | Ok _ => map fst l = names_of_entries schema prefix
           | Throw _ => exists rest, names_of_entries schema prefix = map fst l ++ rest
           end)
  /\ (forall name obj,
        exists l,
          fst (snd (path name obj (s, w))) = install_all l s
          /\ match fst (path name obj (s, w)) with
             | Ok _ => map fst l = names_of name obj
             | Throw _ => exists rest, names_of name obj = map fst l ++ rest
             end).
Proof.
  split.
  - intros schema prefix. apply (add_registers schema prefix (s, w)).
  - intros name obj. apply (path_registers obj name (s, w)).
Qed.

(** The names a declaration installs are the name itself and longer ones. *)
Lemma names_of_entries_longer (props : list (string * decl)) :
  Forall (fun kv => forall name n,
            In n (names_of name (snd kv)) -> String.length name <= String.length n)
         props ->
  forall prefix n,
    In n (names_of_entries_open names_of props prefix) ->
    String.length prefix <= String.length n.
Proof.
  induction 1 as [| [key value] rest Hv _ IH]; intros prefix n Hin; simpl in Hin.
  - contradiction.
  - apply in_app_or in Hin as [Hin | Hin]; [| apply IH, Hin].
    apply Hv in Hin. rewrite append_length in Hin. lia.
Qed.

Lemma names_of_longer (obj : decl) :
  forall name n, In n (names_of name obj) -> String.length name <= String.length n.
Proof.
  induction obj as [| | b | m | str | fname f | t | elems _ | props IH]
    using decl_nested_ind; intros name n Hin;
    try contradiction; try (destruct Hin as [<- | []]; lia).
  cbn [names_of] in Hin. destruct (type_of (DObject props)).
  - destruct Hin as [<- | []]. lia.
  - destruct Hin as [<- | Hin]; [lia |].
    apply (names_of_entries_longer props IH) in Hin.
    rewrite append_length in Hin. simpl in Hin. lia.
Qed.

(** A declaration with which [path] installs: neither null nor undefined,
    and no boolean, number or string. *)
Lemma names_of_head (obj : decl) (name : string) :
  names_of name obj = []
  \/ exists children,
      names_of name obj = name :: children /\ ~ In name children.
Proof.
  destruct obj; try (left; reflexivity);
    try (right; exists []; split; [reflexivity | intros []]).
  cbn [names_of]. destruct (type_of (DObject props)).
  - right. exists []. split; [reflexivity | intros []].
  - right. eexists. split; [reflexivity |]. intros Hin.
    apply names_of_entries_longer in Hin.
    + rewrite append_length in Hin. simpl in Hin. lia.
    + apply Forall_forall. intros kv _ nm n. apply names_of_longer.
Qed.

Lemma install_all_cons (n : string) (t : SchemaType)
  (l : list (string * SchemaType)) (s : Schema) :
  install_all ((n, t) :: l) s = install_all l (install n t s).
Proof. reflexivity. Qed.

Lemma install_all_other (l : list (string * SchemaType)) :
  forall s name,
    ~ In name (map fst l) ->
    paths (install_all l s) !! name = paths s !! name.
Proof.
  induction l as [| [n t] l IH]; intros s name Hnot; [reflexivity |].
  rewrite install_all_cons.
  rewrite IH by (intros Hin; apply Hnot; right; exact Hin).
  simpl. apply lookup_insert_ne. intros ->. apply Hnot. left. reflexivity.
Qed.

(** X12. After [path(name, obj)] has returned, [path(name)] gives a schema
    type: the one installed under [name] is not replaced by those of the
    nested declarations, whose names are longer. For an instance of
    [SchemaType] it is that instance. *)
Theorem declared_path_reads_back (s : Schema) (w : W) (nm : string) (obj : decl) :
  fst (path nm obj (s, w)) = Ok None ->
  let st' := snd (path nm obj (s, w)) in
  exists t,
    path nm DUndefined st' = (Ok (Some (Own t)), st')
    /\ forall t0, obj = DInstance t0 -> t = t0.
Proof.
  intros Hret. cbv zeta.
  destruct (path_registers obj nm (s, w)) as (l & Hs & Hnames).
  rewrite Hret in Hnames. cbn [fst] in Hs.
  destruct (names_of_head obj nm) as [Hnone | (children & Hcons & Hnot)].
  - destruct obj; try discriminate Hnone; try discriminate Hret.
    cbn [names_of] in Hnone. destruct (type_of (DObject props)); discriminate Hnone.
  - rewrite Hcons in Hnames.
    destruct l as [| [n t] l']; [discriminate Hnames |].
    cbn [map fst] in Hnames. injection Hnames as -> Hl'.
    assert (Hlookup : paths (fst (snd (path nm obj (s, w)))) !! nm = Some t).
    { rewrite Hs, install_all_cons.
      rewrite install_all_other by (rewrite Hl'; exact Hnot).
      simpl. apply lookup_insert_eq. }
    exists t. split.
    + cbn [path]. unfold paths_get. rewrite Hlookup. reflexivity.
    + intros t0 ->. cbn in Hlookup. rewrite lookup_insert_eq in Hlookup.
      injection Hlookup as <-. reflexivity.
Qed.

(** ** The four pipelines *)

Lemma install_all_stacks (l : list (string * SchemaType)) :
  forall s,
    getter (stacks (install_all l s))
    = getter (stacks s) ++ map (fun nt => getter_closure (fst nt) (snd nt)) l
    /\ setter (stacks (install_all l s))
       = setter (stacks s) ++ map (fun nt => setter_closure (fst nt) (snd nt)) l
    /\ import_ (stacks (install_all l s))
       = import_ (stacks s) ++ map (fun nt => import_closure (fst nt) (snd nt)) l
    /\ export_ (stacks (install_all l s))
       = export_ (stacks s) ++ map (fun nt => export_closure (fst nt) (snd nt)) l.
Proof.
  induction l as [| [n t] l IH]; intros s.
  - simpl. rewrite !app_nil_r. repeat split.
  - rewrite install_all_cons.
    destruct (IH (install n t s)) as (Hg & Hs & Hi & He).
    rewrite Hg, Hs, Hi, He. simpl. rewrite <- !app_assoc. repeat split.
Qed.

(** X13. Installing types lengthens each of the four pipelines at its end:
    on a document, the getters, setters, importers and exporters of the
    schema run first, as before, and then the closures of the new types in
    the order of installation; an exception of an earlier closure keeps the
    later ones from running. *)
Theorem pipelines_run_in_installation_order (s : Schema)
  (l : list (string * SchemaType)) (d : value) (w : W) :
  let s' := install_all l s in
  _applyGetters s' d w
  = (let* d' := _applyGetters s d in
     run_stack (map (fun nt => getter_closure (fst nt) (snd nt)) l) d') w
  /\ _applySetters s' d w
     = (let* d' := _applySetters s d in
        run_stack (map (fun nt => setter_closure (fst nt) (snd nt)) l) d') w
  /\ _parseDatabase s' d w
     = (let* d' := _parseDatabase s d in
        run_stack (map (fun nt => import_closure (fst nt) (snd nt)) l) d') w
  /\ _exportDatabase s' d w
     = (let* d' := _exportDatabase s d in
        run_stack (map (fun nt => export_closure (fst nt) (snd nt)) l) d') w.
Proof.
  cbv zeta. unfold _applyGetters, _applySetters, _parseDatabase, _exportDatabase.
  destruct (install_all_stacks l s) as (Hg & Hs & Hi & He).
  rewrite Hg, Hs, Hi, He. repeat split; apply run_stack_app.
Qed.

(** ** What population returns *)

(** A descriptor that has a path and a model. *)
Definition complete (item : PopulateOptions) : Prop :=
  missing (item_path item) = false /\ missing (item_model item) = false.

Lemma populate_step_complete (paths : gmap string SchemaType)
  (item item' : PopulateOptions) :
  populate_step paths item = Ok item' ->
  complete item'
  /\ item_path item' = item_path item
  /\ item_rest item' = item_rest item
  /\ (missing (item_model item) = false -> item' = item).
Proof.
  unfold populate_step, complete. intros H.
  destruct (item_path item) as [key |] eqn:Ekey; [| discriminate H].
  destruct (String.eqb key "") eqn:Eempty; [discriminate H |].
  destruct (missing (item_model item)) eqn:Em.
  - destruct (ref_of (paths_get paths key)) as [ref |]; [| discriminate H].
    cbn [result_bind] in H. destruct (missing ref) eqn:Er; [discriminate H |].
    injection H as <-. simpl.
    repeat split; try assumption. intros Hm. discriminate Hm.
  - injection H as <-. rewrite Ekey. simpl. repeat split; assumption.
Qed.

Lemma populate_step_of_complete (paths : gmap string SchemaType)
  (item : PopulateOptions) :
  complete item -> populate_step paths item = Ok item.
Proof.
  intros [Hp Hm]. unfold populate_step.
  destruct (item_path item) as [key |]; [| discriminate Hp].
  simpl in Hp. rewrite Hp, Hm. reflexivity.
Qed.

Lemma populate_loop_complete (paths : gmap string SchemaType)
  (arr : list PopulateOptions) :
  forall l,
    populate_loop paths arr = Ok l ->
    Forall complete l
    /\ map item_path l = map item_path arr
    /\ map item_rest l = map item_rest arr.
Proof.
  induction arr as [| item arr IH]; intros l H; simpl in H.
  - injection H as <-. repeat split. constructor.
  - destruct (populate_step paths item) as [item' |] eqn:Estep; [| discriminate H].
    cbn [result_bind] in H.
    destruct (populate_loop paths arr) as [l' |]; [| discriminate H].
    cbn [result_bind] in H. injection H as <-.
    destruct (populate_step_complete _ _ _ Estep) as (Hc & Hp & Hr & _).
    destruct (IH l' eq_refl) as (Hcs & Hps & Hrs).
    simpl. rewrite Hp, Hr, Hps, Hrs. repeat split. constructor; assumption.
Qed.

Lemma populate_loop_of_complete (paths : gmap string SchemaType)
  (l : list PopulateOptions) :
  Forall complete l -> populate_loop paths l = Ok l.
Proof.
  induction 1 as [| item l Hitem _ IH]; simpl; [reflexivity |].
  rewrite (populate_step_of_complete _ _ Hitem), IH. reflexivity.
Qed.

Lemma populate_result_shape (s : Schema) (expr : populate_expr)
  (l : list PopulateOptions) :
  _parsePopulate s expr = Ok l ->
  Forall complete l /\ map item_path l = map item_path (populate_items expr).
Proof.
  intros H. destruct (populate_loop_complete _ _ _ H) as (Hc & Hp & _).
  split; assumption.
Qed.

(** X14. When [_parsePopulate] returns, every descriptor has a path and a
    model, and the descriptors have the paths and the other keys of the
    items, in input order. The result needs the schema no more: parsed again,
    by any schema, it comes back as it is. *)
Theorem populate_result_is_complete (s : Schema) (expr : populate_expr)
  (l : list PopulateOptions) :
  _parsePopulate s expr = Ok l ->
  Forall complete l
  /\ map item_path l = map item_path (populate_items expr)
  /\ map item_rest l = map item_rest (populate_items expr)
  /\ forall s2 : Schema, _parsePopulate s2 (ExprArray (map ItemOptions l)) = Ok l.
Proof.
  unfold _parsePopulate. intros H.
  destruct (populate_loop_complete _ _ _ H) as (Hc & Hp & Hr).
  repeat split; try assumption.
  intros s2. cbn [populate_items]. rewrite map_map, map_id.
  apply populate_loop_of_complete, Hc.
Qed.

(** X15. A population string with an empty segment, that is an empty string
    or one with a space at its start, at its end or after another space,
    never gives descriptors: [_parsePopulate] throws, whatever the schema. *)
Theorem populate_string_with_empty_segment_throws (s : Schema) (str : string) :
  In "" (split " " str) ->
  exists e, _parsePopulate s (ExprString str) = Throw e.
Proof.
  intros Hin.
  destruct (_parsePopulate s (ExprString str)) as [l | e] eqn:E;
    [| exists e; reflexivity].
  exfalso. destruct (populate_result_shape s (ExprString str) l E) as (Hc & Hp).
  cbn [populate_items] in Hp. rewrite map_map in Hp. cbn [of_path item_path] in Hp.
  assert (Hsome : In (Some "") (map item_path l))
    by (rewrite Hp; apply (in_map Some), Hin).
  apply in_map_iff in Hsome as (item & Hitem & Hitem_in).
  rewrite List.Forall_forall in Hc. destruct (Hc item Hitem_in) as [Hpath _].
  rewrite Hitem in Hpath. discriminate Hpath.
Qed.

(** ** Declaring a path by a constructor *)

(** X16. A bare constructor is shorthand for [{type: constructor}]: [path]
    does the same with both. The type is chosen by the constructor's name:
    one named as a built-in type is never called, [Types[name]] is built in
    its place; any other is called with the name of the path and
    [{type: constructor}]. *)
Theorem bare_constructor_is_type_shorthand (nm fname : string) (f : nat) :
  let long := DObject [("type", DFunction fname f)] in
  (forall st, path nm (DFunction fname f) st = path nm long st)
  /\ getSchemaType nm long
     = (if existsb (String.eqb fname) builtinTypes
        then Types host fname nm long
        else construct host f nm long).
Proof.
  cbv zeta. split; [reflexivity |].
  unfold getSchemaType. cbn [type_of decl_lookup String.eqb Ascii.eqb Bool.eqb
                               decl_truthy name_of].
  destruct (existsb (String.eqb fname) builtinTypes); reflexivity.
Qed.
End Engine.

(** * The engine on a host *)

(** A host whose state counts the calls of opaque functions: each call
    returns the count and adds one. Objects are never the same one; [<]
    compares two numbers or two strings. *)
Definition counting_call (f : nat) (this : receiver) : SE nat value :=
  fun w => (Ok (VNum (Z.of_nat w)), S w).

Definition primitive_less_than (a b : value) : option bool :=
  match a, b with
  | VNum x, VNum y => Some (x <? y)%Z
  | VStr x, VStr y => Some (String.ltb x y)
  | _, _ => None
  end.

Definition core_host : Host (W := nat) :=
  {| call := counting_call;
     same_object := fun _ _ => false;
     less_than := primitive_less_than;
     includes := fun _ _ => throw (TypeError NotCallable);
     construct := fun _ _ _ => throw (TypeError NotConstructor);
     Types := fun _ _ _ => throw (TypeError NotConstructor);
     Types_Array := fun _ _ => throw (TypeError NotConstructor);
     Types_Object := throw (TypeError NotConstructor);
     Types_Virtual := fun _ _ => throw (TypeError NotConstructor) |}.

(** Modelled from the spec: the classes of [./types], which are not among the
    sources, as far as the scenarios need them. A built-in type is the base
    type with the [required], [default] and [ref] of its declaration; Number
    has the operator [u$inc], "adding the delta"; an Array type has a
    [child]. *)
Definition u_inc (val update data : value) : SE nat (value * value) :=
  match val, update with
  | VNum a, VNum b => ret (VNum (a + b), data)
  | _, _ => ret (update, data)
  end.

Definition with_u_inc (t : SchemaType (W := nat)) : SchemaType (W := nat) :=
  {| name := name t; options := options t; default := default t;
     child := child t; cast := cast t; validate := validate t;
     compare := compare t; parse := parse t; value_ := value_ t;
     match_ := match_ t; q_method := q_method t;
     u_method := fun ukey => if String.eqb ukey "u$inc" then Some u_inc
                             else u_method t ukey |}.

Definition with_child (t c : SchemaType (W := nat)) : SchemaType (W := nat) :=
  {| name := name t; options := options t; default := default t;
     child := Some c; cast := cast t; validate := validate t;
     compare := compare t; parse := parse t; value_ := value_ t;
     match_ := match_ t; q_method := q_method t; u_method := u_method t |}.

Definition raw_options_of (options : decl (W := nat)) : option RawOptions :=
  match options with
  | DObject props =>
      Some {| raw_required := match decl_lookup "required" props with
                              | Some (DBool b) => Some b
                              | _ => None
                              end;
              raw_default := match decl_lookup "default" props with
                             | Some (DBool b) => VBool b
                             | Some (DNum n) => VNum n
                             | Some (DStr s) => VStr s
                             | Some (DFunction _ f) => VFun f
                             | Some DNull => VNull
                             | _ => VUndefined
                             end;
              raw_ref := match decl_lookup "ref" props with
                         | Some (DStr r) => Some r
                         | _ => None
                         end |}
  | _ => None
  end.

Definition demo_Types (typeName name : string) (options : decl (W := nat))
  : SE nat (SchemaType (W := nat)) :=
  let t := SchemaType_new core_host (Some name) (raw_options_of options) in
  ret (if String.eqb typeName "Number" then with_u_inc t else t).

Definition demo_host : Host (W := nat) :=
  {| call := counting_call;
     same_object := fun _ _ => false;
     less_than := primitive_less_than;
     includes := fun _ _ => throw (TypeError NotCallable);
     construct := fun _ _ _ => throw (TypeError NotConstructor);
     Types := demo_Types;
     Types_Array := fun name c =>
                      ret (with_child (SchemaType_new core_host (Some name) None) c);
     Types_Object := ret (SchemaType_new core_host None None);
     Types_Virtual := fun name _ => ret (SchemaType_new core_host (Some name) None) |}.

(** The schema a registration leaves, and the document a list of mutators
    leaves. *)
Definition after {A} (m : SE (Schema (W := nat) * nat) A) (s : Schema (W := nat))
  : Schema (W := nat) :=
  fst (snd (m (s, 0))).

Definition apply_update (s : Schema (W := nat)) (updates data : value)
  : result value :=
  match _parseUpdate demo_host s updates with
  | Ok stack => fst (run_stack stack data 0)
  | Throw e => Throw e
  end.

Definition String_ : decl (W := nat) := DFunction "String" 0.
Definition Number_ : decl (W := nat) := DFunction "Number" 1.

(** [{age: Number, visits: Number}] *)
Definition counters : Schema (W := nat) :=
  after (add demo_host [("age", Number_); ("visits", Number_)] "") Schema_empty.

(** [{age: Number, name: {first: String, last: {type: String, default: 'Doe'}}}] *)
Definition person : list (string * decl (W := nat)) :=
  [("age", Number_);
   ("name", DObject [("first", String_);
                     ("last", DObject [("type", String_); ("default", DStr "Doe")])])].

(** [{author: {type: String, ref: 'User'}, comments: [{type: String, ref:
    'Comment'}], tags: String}] *)
Definition post : Schema (W := nat) :=
  after (add demo_host
           [("author", DObject [("type", String_); ("ref", DStr "User")]);
            ("comments", DArray [DObject [("type", String_); ("ref", DStr "Comment")]]);
            ("tags", String_)] "") Schema_empty.

(** ** C1: the inline form *)

(** C1. The update [{$set: {age: 31}, $inc: {visits: 1}}] compiles to two
    closures, and the second is built from [fields[1]] of the one-field object
    [{visits: 1}]: for the key [undefined], the type synthesized for it and
    the argument [undefined]. On [{age: 30, visits: 5}] it throws a TypeError
    (the accessor refuses the key, and the synthesized type has no [u$inc]
    to call), where one action per entry would leave [{age: 31, visits: 6}];
    [$inc] as the first key does leave [visits] at 6. The update
    [{$set: {a: 1, b: 2}}] on [{}] leaves [{a: 1}]: both closures set [a]. *)
Theorem inline_update_reads_outer_index :
  _parseUpdate demo_host counters
    (VObj [("$set", VObj [("age", VNum 31)]); ("$inc", VObj [("visits", VNum 1)])])
  = Ok [updateStackOperator demo_host (paths_get (paths counters) "age")
          "u$set" (Some "age") (VNum 31);
        updateStackOperator demo_host (paths_get (paths counters) "undefined")
          "u$inc" None VUndefined]
  /\ apply_update counters
       (VObj [("$set", VObj [("age", VNum 31)]); ("$inc", VObj [("visits", VNum 1)])])
       (VObj [("age", VNum 30); ("visits", VNum 5)])
     = Throw (TypeError Refused)
  /\ (forall val data w,
        call_u (or_new demo_host (paths_get (paths counters) "undefined") None)
          "u$inc" val VUndefined data w
        = (Throw (TypeError NotCallable), w))
  /\ apply_update counters
       (VObj [("$inc", VObj [("visits", VNum 1)])])
       (VObj [("age", VNum 30); ("visits", VNum 5)])
     = Ok (VObj [("age", VNum 30); ("visits", VNum 6)])
  /\ apply_update Schema_empty
       (VObj [("$set", VObj [("a", VNum 1); ("b", VNum 2)])]) (VObj [])
     = Ok (VObj [("a", VNum 1)]).
Proof.
  split; [reflexivity |].
  split; [vm_compute; reflexivity |].
  split; [intros val data w; reflexivity |].
  split; vm_compute; reflexivity.
Qed.

(** ** C2: an operator the type lacks *)

(** The query [{age: {$foo: 1}}] and the update [{$foo: {age: 1}}] name an
    operator the base type at [age] lacks, and both compile: [_execQuery] and
    [_parseUpdate] return. *)
Lemma unknown_operator_compiles :
  q_method (SchemaType_new demo_host (Some "age") None) "q$foo" = None
  /\ u_method (SchemaType_new demo_host (Some "age") None) "u$foo" = None
  /\ (exists f,
        _execQuery demo_host Schema_empty (VObj [("age", VObj [("$foo", VNum 1)])])
        = Ok f)
  /\ (exists m,
        _parseUpdate demo_host Schema_empty (VObj [("$foo", VObj [("age", VNum 1)])])
        = Ok [m]).
Proof.
  split; [reflexivity |]. split; [reflexivity |].
  split; eexists; reflexivity.
Qed.

Lemma unknown_operator_throws_on_application :
  exists f,
    _execQuery demo_host Schema_empty (VObj [("age", VObj [("$foo", VNum 1)])]) = Ok f
    /\ forall d w, f d w = (Throw (TypeError NotCallable), w).
Proof.
  apply (proj1 (proj2 (proj2
           (operators_are_looked_up_on_application demo_host Schema_empty)))
           "age" "$foo" (VNum 1)).
  - reflexivity.
  - reflexivity.
  - intros t H. vm_compute in H. injection H as <-. reflexivity.
Defined.

(** ** C3: a name installed twice *)

(** After [add({a: String})] twice, [paths] has one key and each stack two
    closures; after the single [add({'a.b': String, a: {b: Number}})] on a
    new schema, which installs [a.b], [a] and [a.b] again, [paths] has two
    keys and each stack three closures. *)
Lemma path_installed_twice :
  let s := after (add demo_host [("a", String_)] "")
             (after (add demo_host [("a", String_)] "") Schema_empty) in
  let s' := after (add demo_host [("a.b", String_); ("a", DObject [("b", Number_)])] "")
              Schema_empty in
  (size (paths s) = 1
   /\ length (getter (stacks s)) = 2
   /\ length (setter (stacks s)) = 2
   /\ length (import_ (stacks s)) = 2
   /\ length (export_ (stacks s)) = 2)
  /\ (size (paths s') = 2
      /\ length (getter (stacks s')) = 3
      /\ length (setter (stacks s')) = 3
      /\ length (import_ (stacks s')) = 3
      /\ length (export_ (stacks s')) = 3).
Proof. vm_compute. repeat split. Qed.

(** The schema of the specification's scenario installs [age], [name],
    [name.first] and [name.last]: four keys, four closures in each stack. *)
Lemma person_schema_aligned :
  let s := after (add demo_host person "") Schema_empty in
  names_of_entries person "" = ["age"; "name"; "name.first"; "name.last"]
  /\ size (paths s) = length (getter (stacks s))
  /\ length (getter (stacks s)) = 0 + 4.
Proof.
  split; [reflexivity |].
  apply (proj1 (proj2 (stacks_aligned_paths_bounded demo_host))
           person "" Schema_empty 0 _ (snd (snd (add demo_host person "" (Schema_empty, 0))))).
  - vm_compute. reflexivity.
  - apply (bool_decide_unpack _). vm_compute. exact I.
  - apply (bool_decide_unpack _). vm_compute. exact I.
  - intros n _. apply lookup_empty.
  - reflexivity.
Defined.

(** ** C4: the name compiled under a key *)



(** ** C5: the scenario's query *)

Example not_negates_example :
  let q := VObj [("age", VObj [("$gte", VNum 18); ("$lt", VNum 65)])] in
  let d := VObj [("age", VNum 30)] in
  (exists f, _execQuery demo_host Schema_empty q = Ok f
             /\ f d 0 = (Ok (VBool true), 0))
  /\ (exists g, _execQuery demo_host Schema_empty (VObj [("$not", q)]) = Ok g
                /\ g d 0 = (Ok (VBool false), 0))
  /\ (exists h, _execQuery demo_host Schema_empty (VObj [("$nor", VArr [q])]) = Ok h
                /\ h d 0 = (Ok (VBool false), 0)).
Proof. repeat split; eexists; split; reflexivity. Qed.

(** ** C6: a function-valued default *)

(** Two casts of [null] call the default twice: the host counts 0, then 1. *)
Lemma cast_calls_default_each_time :
  let t := SchemaType_new demo_host (Some "id")
             (Some {| raw_required := None; raw_default := VFun 7; raw_ref := None |}) in
  (let* a := cast t VNull (VObj []) in
   let* b := cast t VNull (VObj []) in
   ret (a, b))%se 0
  = (Ok (VNum 0, VNum 1), 2).
Proof.
  cbv zeta.
  rewrite (proj2 (proj1 (proj2
             (cast_returns_value_or_default demo_host (Some "id")
                (Some {| raw_required := None; raw_default := VFun 7; raw_ref := None |})
                VNull (VObj []) 0)) eq_refl 7 eq_refl)).
  reflexivity.
Defined.

(** ** C7: a required field that is missing *)

Definition required_name : SchemaType (W := nat) :=
  SchemaType_new demo_host (Some "name")
    (Some {| raw_required := Some true; raw_default := VUndefined; raw_ref := None |}).

Lemma required_field_reaches_caller :
  _applySetters
    (after (add demo_host [("age", Number_); ("name", DInstance required_name)] "")
       Schema_empty)
    (VObj [("age", VNum 30)]) 0
  = (Throw (ValidationError "`name` is required!"), 0).
Proof.
  apply (proj2 (validate_required_and_propagation demo_host)
           _ [setter_closure "age" (with_u_inc (SchemaType_new core_host (Some "age") None))]
           [] "name" required_name (VObj [("age", VNum 30)]) (VObj [("age", VNum 30)])
           0 0 0).
  - reflexivity.
  - reflexivity.
  - reflexivity.
Defined.

(** ** C8: the scenario's sort *)


Example sort_scenario :
  let older := VObj [("age", VNum 40)] in
  let a30 := VObj [("age", VNum 30); ("name", VObj [("last", VStr "A")])] in
  let b30 := VObj [("age", VNum 30); ("name", VObj [("last", VStr "B")])] in
  exists comparator,
    _execSort demo_host (paths (after (add demo_host person "") Schema_empty))
      (VObj [("age", VNum (-1)); ("name.last", VNum 1)]) = Ok comparator
    /\ comparator older a30 0 = (Ok (VNum (-1)), 0)
    /\ comparator a30 b30 0 = (Ok (VNum (-1)), 0)
    /\ comparator b30 a30 0 = (Ok (VNum 1), 0)
    /\ comparator a30 a30 0 = (Ok (VNum 0), 0).
Proof. eexists. repeat split; vm_compute; reflexivity. Qed.

(** ** C9 and C10: population *)

(** An item whose path is registered with a [ref] is resolvable. *)
Ltac resolve_by_ref :=
  split; [reflexivity | right; do 2 eexists; repeat split; reflexivity].

(** An item without model whose path is not registered gives neither a
    PopulationError nor a list of descriptors; and an item without path does
    not decide when an item before it has no model. *)
Lemma populate_unregistered_is_no_population_error :
  _parsePopulate post
    (ExprArray [ItemOptions {| item_path := Some "nope"; item_model := None;
                               item_rest := [] |}])
  = Throw (TypeError NullDereference)
  /\ _parsePopulate post
       (ExprArray [ItemString "tags";
                   ItemOptions {| item_path := None; item_model := None;
                                  item_rest := [] |}])
     = Throw (PopulationError "model is required").
Proof. split; vm_compute; reflexivity. Qed.

Lemma populate_scenario :
  _parsePopulate post (ExprString "author comments")
  = Ok (map (filled (paths post)) (populate_items (ExprString "author comments")))
  /\ map (filled (paths post)) (populate_items (ExprString "author comments"))
     = [ {| item_path := Some "author"; item_model := Some "User"; item_rest := [] |};
         {| item_path := Some "comments"; item_model := Some "Comment"; item_rest := [] |} ].
Proof.
  split; [| vm_compute; reflexivity].
  apply (proj2 (populate_descriptors_or_population_error post
                  (ExprString "author comments"))).
  constructor; [resolve_by_ref |]. constructor; [resolve_by_ref |]. constructor.
Defined.

Example populate_without_ref :
  _parsePopulate post
    (ExprArray [ItemOptions {| item_path := Some "tags"; item_model := None;
                               item_rest := [] |}])
  = Throw (PopulationError "model is required")
  /\ _parsePopulate post (ExprString "author  tags")
     = Throw (PopulationError "path is required").
Proof. split; vm_compute; reflexivity. Qed.



(** * The further properties on the host *)


(** [{visits: {$inc: 1}}] and [{$inc: {visits: 1}}] compile alike. *)
Lemma inc_in_both_forms :
  _parseUpdate demo_host counters (VObj [("visits", VObj [("$inc", VNum 1)])])
  = Ok [updateStackOperator demo_host (paths_get (paths counters) "visits")
          "u$inc" (Some "visits") (VNum 1)]
  /\ _parseUpdate demo_host counters (VObj [("$inc", VObj [("visits", VNum 1)])])
     = _parseUpdate demo_host counters (VObj [("visits", VObj [("$inc", VNum 1)])]).
Proof.
  apply (first_class_and_inline_forms_agree demo_host counters "$inc" "visits" (VNum 1));
    reflexivity.
Defined.



(** [{name: {last: 1, first: 'desc'}, age: -1}] sorts by [name.last],
    [name.first] and [age]. *)
Lemma sort_by_nested_name :
  _parseSort demo_host (paths Schema_empty)
    (VObj [("name", VObj [("last", VNum 1); ("first", VStr "desc")]); ("age", VNum (-1))])
    "" []
  = Ok (comparators_of demo_host (paths Schema_empty)
          [("name.last", VNum 1); ("name.first", VStr "desc"); ("age", VNum (-1))])
  /\ forall props',
      plainly_nested (VObj props') = true ->
      leaves "" (VObj props')
      = leaves ""
          (VObj [("name", VObj [("last", VNum 1); ("first", VStr "desc")]);
                 ("age", VNum (-1))]) ->
      _execSort demo_host (paths Schema_empty) (VObj props')
      = _execSort demo_host (paths Schema_empty)
          (VObj [("name", VObj [("last", VNum 1); ("first", VStr "desc")]);
                 ("age", VNum (-1))]).
Proof.
  apply (nested_sort_is_dotted_sort demo_host Schema_empty
           [("name", VObj [("last", VNum 1); ("first", VStr "desc")]); ("age", VNum (-1))]).
  reflexivity.
Defined.

(** After [path('name', {first: String})], [path('name')] gives a type. *)
Lemma nested_declaration_reads_back :
  exists t,
    path demo_host "name" DUndefined
      (snd (path demo_host "name" (DObject [("first", String_)]) (Schema_empty, 0)))
    = (Ok (Some (Own t)),
       snd (path demo_host "name" (DObject [("first", String_)]) (Schema_empty, 0)))
    /\ forall t0, DObject [("first", String_)] = DInstance t0 -> t = t0.
Proof.
  apply (declared_path_reads_back demo_host Schema_empty 0 "name"
           (DObject [("first", String_)])).
  reflexivity.
Defined.

(** The descriptors of ['author comments'] parse again as they are. *)
Lemma populate_result_parses_again :
  Forall complete
    [ {| item_path := Some "author"; item_model := Some "User"; item_rest := [] |};
      {| item_path := Some "comments"; item_model := Some "Comment"; item_rest := [] |} ]
  /\ map item_path
       [ {| item_path := Some "author"; item_model := Some "User"; item_rest := [] |};
         {| item_path := Some "comments"; item_model := Some "Comment"; item_rest := [] |} ]
     = map item_path (populate_items (ExprString "author comments"))
  /\ map item_rest
       [ {| item_path := Some "author"; item_model := Some "User"; item_rest := [] |};
         {| item_path := Some "comments"; item_model := Some "Comment"; item_rest := [] |} ]
     = map item_rest (populate_items (ExprString "author comments"))
  /\ forall s2 : Schema (W := nat),
      _parsePopulate s2
        (ExprArray
           (map ItemOptions
              [ {| item_path := Some "author"; item_model := Some "User"; item_rest := [] |};
                {| item_path := Some "comments"; item_model := Some "Comment";
                   item_rest := [] |} ]))
      = Ok [ {| item_path := Some "author"; item_model := Some "User"; item_rest := [] |};
             {| item_path := Some "comments"; item_model := Some "Comment";
                item_rest := [] |} ].
Proof.
  apply (populate_result_is_complete post (ExprString "author comments")).
  vm_compute. reflexivity.
Defined.

(** ['author  tags'], with two spaces, has an empty segment. *)
Lemma populate_doubled_space_throws :
  exists e, _parsePopulate post (ExprString "author  tags") = Throw e.
Proof.
  apply (populate_string_with_empty_segment_throws post "author  tags").
  right. left. reflexivity.
Defined.

(** * Hooks, methods and statics *)

Module Registry.

(** A function, with the number of parameters it declares. *)
Record callable : Type := {
  fn_id : nat;
  fn_length : nat;
}.

(** What is passed for [fn]: a function or another value. An opaque function
    among the values declares no parameter. *)
Inductive argument : Type :=
| Callable (c : callable)
| Other (v : value).

(** [typeof fn === 'function'], and the function then. *)
Definition function_of (fn : argument) : option callable :=
  match fn with
  | Callable c => Some c
  | Other (VFun f) => Some {| fn_id := f; fn_length := 0 |}
  | Other _ => None
  end.

(** Modelled from the spec: Bluebird, which is not among the sources, wraps a
    hook so that "if the function declares >1 parameter it is invoked as
    callback-style (err-first); otherwise as either sync or
    promise-returning". *)
Inductive wrapper : Type :=
| Promisified (c : callable)
| Method (c : callable).

Definition checkHookType (type : string) : result unit :=
  if negb (String.eqb type "save") && negb (String.eqb type "remove")
  then Throw (TypeError (Message "Hook type must be `save` or `remove`!"))
  else Ok tt.

(** [hookWrapper] is called on functions only. *)
Definition hookWrapper (fn : callable) : wrapper :=
  if Nat.ltb 1 (fn_length fn) then Promisified fn else Method fn.

(** [{save: [], remove: []}] *)
Record Kinds : Type := {
  save : list wrapper;
  remove : list wrapper;
}.

Record Hooks : Type := {
  hooks_pre : Kinds;
  hooks_post : Kinds;
}.

(** An object literal used as a table of functions: its own properties, and
    the function that is its prototype once one was assigned to [__proto__];
    before, the prototype is [Object.prototype]. *)
Record Table : Type := {
  own : gmap string callable;
  proto : option callable;
}.

(** The fields of a schema that registration of hooks and methods writes. *)
Record Registry : Type := {
  hooks : Hooks;
  methods : Table;
  statics : Table;
}.

Definition Registry_empty : Registry :=
  {| hooks := {| hooks_pre := {| save := []; remove := [] |};
                 hooks_post := {| save := []; remove := [] |} |};
     methods := {| own := ∅; proto := None |};
     statics := {| own := ∅; proto := None |} |}.

(** [kinds[type].push(w)], for a [type] that passed [checkHookType]. *)
Definition push (type : string) (w : wrapper) (kinds : Kinds) : Kinds :=
  if String.eqb type "save"
  then {| save := save kinds ++ [w]; remove := remove kinds |}
  else {| save := save kinds; remove := remove kinds ++ [w] |}.

Definition pre (type : string) (fn : argument) : SE Registry unit :=
  fun r =>
    match checkHookType type with
    | Throw e => (Throw e, r)
    | Ok _ =>
        match function_of fn with
        | None => (Throw (TypeError (Message "Hook must be a function!")), r)
        | Some c =>
            (Ok tt,
             {| hooks := {| hooks_pre := push type (hookWrapper c) (hooks_pre (hooks r));
                            hooks_post := hooks_post (hooks r) |};
                methods := methods r;
                statics := statics r |})
        end
    end.

Definition post (type : string) (fn : argument) : SE Registry unit :=
  fun r =>
    match checkHookType type with
    | Throw e => (Throw e, r)
    | Ok _ =>
        match function_of fn with
        | None => (Throw (TypeError (Message "Hook must be a function!")), r)
        | Some c =>
            (Ok tt,
             {| hooks := {| hooks_pre := hooks_pre (hooks r);
                            hooks_post := push type (hookWrapper c) (hooks_post (hooks r)) |};
                methods := methods r;
                statics := statics r |})
        end
    end.

(** What an object with no own property of a name finds under it on the
    function it inherits from, before [Object.prototype] is reached. *)
Inductive inherited : Type :=
| Free                     (* nothing, or a property that can be written *)
| ReadOnly                 (* a property that cannot, as the [length] and the
                              [name] of a function, or an accessor without
                              setter *)
| Setter (outcome : result unit).
                           (* an accessor: its setter is called, and returns or
                              throws *)

Section Tables.

(** The properties of a function are the host's. *)
Variable inherits : callable -> string -> inherited.

(** What [table[name] = fn] meets: an own property is written; without one,
    the property the prototype has under the name decides. *)
Definition met (name : string) (table : Table) : inherited :=
  match own table !! name, proto table with
  | None, Some c => inherits c name
  | _, _ => Free
  end.

(** [table[name] = fn], in strict code. A read-only property of the
    prototype makes it throw and a setter takes it; else the name becomes, or
    stays, an own key, except for [__proto__], which is the accessor of
    [Object.prototype] where the table has no such key: it sets the
    prototype. *)
Definition assign (name : string) (fn : callable) (table : Table) : result Table :=
  match met name table with
  | ReadOnly => Throw (TypeError NotWritable)
  | Setter outcome => let+ _ := outcome in Ok table
  | Free =>
      match own table !! name with
      | None =>
          if String.eqb name "__proto__"
          then Ok {| own := own table; proto := Some fn |}
          else Ok {| own := <[name := fn]> (own table); proto := proto table |}
      | Some _ => Ok {| own := <[name := fn]> (own table); proto := proto table |}
      end
  end.

(** [table[name]], where it is a function that was assigned. *)
Definition assigned (name : string) (table : Table) : option callable :=
  match own table !! name with
  | Some c => Some c
  | None => if String.eqb name "__proto__" then proto table else None
  end.

Definition method (name : string) (fn : argument) : SE Registry unit :=
  fun r =>
    if String.eqb name ""
    then (Throw (TypeError (Message "Method name is required!")), r)
    else
      match function_of fn with
      | None => (Throw (TypeError (Message "Instance method must be a function!")), r)
      | Some c =>
          match assign name c (methods r) with
          | Ok table =>
              (Ok tt, {| hooks := hooks r; methods := table; statics := statics r |})
          | Throw e => (Throw e, r)
          end
      end.

Definition static (name : string) (fn : argument) : SE Registry unit :=
  fun r =>
    if String.eqb name ""
    then (Throw (TypeError (Message "Method name is required!")), r)
    else
      match function_of fn with
      | None => (Throw (TypeError (Message "Static method must be a function!")), r)
      | Some c =>
          match assign name c (statics r) with
          | Ok table =>
              (Ok tt, {| hooks := hooks r; methods := methods r; statics := table |})
          | Throw e => (Throw e, r)
          end
      end.

End Tables.

(** A call of [pre] or [post]. *)
Inductive hook_call : Type :=
| Pre (type : string) (fn : argument)
| Post (type : string) (fn : argument).

Definition run_call (c : hook_call) : SE Registry unit :=
  match c with
  | Pre type fn => pre type fn
  | Post type fn => post type fn
  end.

(** The registry after a sequence of calls, each returning or throwing. *)
Definition after_calls (calls : list hook_call) (r : Registry) : Registry :=
  fold_left (fun r c => snd (run_call c r)) calls r.

(** The wrapper a call adds to the list of [pre] or of [post] hooks of
    [kind], if it adds one. *)
Definition added (to_pre : bool) (kind : string) (c : hook_call) : option wrapper :=
  match c with
  | Pre type fn =>
      if to_pre && String.eqb type kind then option_map hookWrapper (function_of fn)
      else None
  | Post type fn =>
      if negb to_pre && String.eqb type kind then option_map hookWrapper (function_of fn)
      else None
  end.

Lemma run_call_adds (c : hook_call) (r : Registry) :
  let r' := snd (run_call c r) in
  save (hooks_pre (hooks r'))
  = save (hooks_pre (hooks r)) ++ option_list (added true "save" c)
  /\ remove (hooks_pre (hooks r'))
     = remove (hooks_pre (hooks r)) ++ option_list (added true "remove" c)
  /\ save (hooks_post (hooks r'))
     = save (hooks_post (hooks r)) ++ option_list (added false "save" c)
  /\ remove (hooks_post (hooks r'))
     = remove (hooks_post (hooks r)) ++ option_list (added false "remove" c)
  /\ methods r' = methods r
  /\ statics r' = statics r.
Proof.
  destruct c as [type fn | type fn]; cbn [run_call added andb negb];
    unfold pre, post, checkHookType, push;
    destruct (String.eqb type "save") eqn:Es;
    destruct (String.eqb type "remove") eqn:Er; cbn [negb andb];
    try (apply String.eqb_eq in Es; apply String.eqb_eq in Er; congruence);
    destruct (function_of fn) as [c |]; cbn;
    rewrite ?app_nil_r; repeat split.
Qed.

(** X17. After any sequence of [pre] and [post] calls, whichever of them
    threw, each of the four hook lists holds what it held before followed by
    the wrappers of the calls made for it with a function, in call order: a
    function that declares more than one parameter is promisified, another
    is wrapped as a method. A call for another type than [save] or [remove],
    or with something that is no function, adds nothing; [methods] and
    [statics] are left as they were. *)
Theorem hooks_hold_wrapped_functions_in_call_order
  (calls : list hook_call) (r : Registry) :
  let r' := after_calls calls r in
  save (hooks_pre (hooks r'))
  = save (hooks_pre (hooks r)) ++ omap (added true "save") calls
  /\ remove (hooks_pre (hooks r'))
     = remove (hooks_pre (hooks r)) ++ omap (added true "remove") calls
  /\ save (hooks_post (hooks r'))
     = save (hooks_post (hooks r)) ++ omap (added false "save") calls
  /\ remove (hooks_post (hooks r'))
     = remove (hooks_post (hooks r)) ++ omap (added false "remove") calls
  /\ methods r' = methods r
  /\ statics r' = statics r.
Proof.
  cbv zeta. revert r. induction calls as [| c calls IH]; intros r.
  - cbn. rewrite !app_nil_r. repeat split.
  - cbn [after_calls fold_left]. change (fold_left _ calls ?x) with (after_calls calls x).
    destruct (IH (snd (run_call c r))) as (H1 & H2 & H3 & H4 & H5 & H6).
    destruct (run_call_adds c r) as (K1 & K2 & K3 & K4 & K5 & K6).
    rewrite H1, H2, H3, H4, H5, H6, K1, K2, K3, K4, K5, K6.
    cbn -[added].
    repeat split;
      match goal with
      | |- context [added ?b ?k c] => destruct (added b k c)
      end; rewrite <- ?app_assoc, ?app_nil_r; reflexivity.
Qed.

(** X18. A hook call is checked for its type first: with a type other than
    [save] and [remove] it throws 'Hook type must be `save` or `remove`!'
    whatever [fn] is, with one of the two and no function it throws 'Hook
    must be a function!', and it returns otherwise. A call that throws
    leaves the registry as it was. *)
Theorem hook_call_is_checked_for_type_first (c : hook_call) (r : Registry) :
  let type := match c with Pre type _ | Post type _ => type end in
  let fn := match c with Pre _ fn | Post _ fn => fn end in
  let known := String.eqb type "save" || String.eqb type "remove" in
  match fst (run_call c r) with
  | Ok _ => known = true /\ is_Some (function_of fn)
  | Throw e =>
      snd (run_call c r) = r
      /\ e = TypeError (Message (if known then "Hook must be a function!"
                                 else "Hook type must be `save` or `remove`!"))
      /\ (known = false \/ function_of fn = None)
  end.
Proof.
  destruct c as [type fn | type fn]; cbv zeta; cbn [run_call];
    unfold pre, post, checkHookType;
    destruct (String.eqb type "save"), (String.eqb type "remove"); cbn [negb andb orb];
    try (repeat split; left; reflexivity);
    destruct (function_of fn) as [f |]; cbn [fst snd];
    try (split; [reflexivity | eexists; reflexivity]);
    repeat split; right; reflexivity.
Qed.

(** What an assignment that goes through leaves: the function under the
    name, the other names as they were, and no new key for [__proto__]. *)
Definition assigned_in (name : string) (c : callable) (before after : Table) : Prop :=
  assigned name after = Some c
  /\ (forall n, n <> name -> assigned n after = assigned n before)
  /\ dom (own after)
     = (if String.eqb name "__proto__" then dom (own before)
        else {[name]} ∪ dom (own before)).

(** What a call of [method] or [static] does to the registry [r]: [table]
    is the table it writes, [other] the other one, [complaint] what it says
    of a value that is no function. *)
Definition assigns_or_throws (inherits : callable -> string -> inherited)
  (name : string) (fn : argument) (r : Registry)
  (call : SE Registry unit) (table other : Registry -> Table) (complaint : string)
  : Prop :=
  other (snd (call r)) = other r
  /\ hooks (snd (call r)) = hooks r
  /\ if String.eqb name ""
     then call r = (Throw (TypeError (Message "Method name is required!")), r)
     else
       match function_of fn with
       | None => call r = (Throw (TypeError (Message complaint)), r)
       | Some c =>
           match met inherits name (table r) with
           | Free =>
               fst (call r) = Ok tt
               /\ assigned_in name c (table r) (table (snd (call r)))
           | ReadOnly => call r = (Throw (TypeError NotWritable), r)
           | Setter (Throw e) => call r = (Throw e, r)
           | Setter (Ok _) => call r = (Ok tt, r)
           end
       end.

Lemma assign_free (inherits : callable -> string -> inherited)
  (name : string) (c : callable) (table : Table) :
  met inherits name table = Free ->
  exists after,
    assign inherits name c table = Ok after /\ assigned_in name c table after.
Proof.
  intros Hmet. unfold assign. rewrite Hmet. unfold assigned_in, assigned.
  destruct (own table !! name) as [old |] eqn:Eown.
  - eexists. split; [reflexivity |]. cbn [own proto].
    split; [rewrite lookup_insert_eq; reflexivity |]. split.
    + intros n Hn. rewrite lookup_insert_ne by congruence. reflexivity.
    + rewrite dom_insert_L.
      assert (Hin : name ∈ dom (own table)) by (apply elem_of_dom; eexists; exact Eown).
      destruct (String.eqb name "__proto__"); [| reflexivity].
      apply leibniz_equiv. apply subseteq_union_1.
      intros x Hx. apply elem_of_singleton in Hx. subst x. exact Hin.
  - destruct (String.eqb name "__proto__") eqn:Eproto.
    + apply String.eqb_eq in Eproto.
      eexists. split; [reflexivity |]. cbn [own proto]. rewrite Eown.
      split; [reflexivity |]. split; [| reflexivity].
      intros n Hn. destruct (own table !! n); [reflexivity |].
      destruct (String.eqb n "__proto__") eqn:En; [| reflexivity].
      apply String.eqb_eq in En. congruence.
    + eexists. split; [reflexivity |]. cbn [own proto].
      split; [rewrite lookup_insert_eq; reflexivity |]. split; [| apply dom_insert_L].
      intros n Hn. rewrite lookup_insert_ne by congruence. reflexivity.
Qed.

(** X19. [method] and [static] check the name first: an empty name throws
    'Method name is required!' whatever [fn] is, and a value that is no
    function throws 'Instance method must be a function!' or 'Static method
    must be a function!'. Then the function is assigned to the name in the
    table of the call. Where the table has the name as a key, or its
    prototype has nothing against it, the call returns: reading the name
    gives the function, reading another name gives what it gave before, and
    [__proto__] adds no key. Where the table inherits from a function (one
    registered as [__proto__]) a name that cannot be written, as [length] and
    [name], the call throws a TypeError, and where it inherits a setter the
    setter decides; neither adds a key. A call that throws leaves the
    registry as it was, and no call touches the other table or the hooks. *)
Theorem method_and_static_assign_or_throw
  (inherits : callable -> string -> inherited)
  (name : string) (fn : argument) (r : Registry) :
  assigns_or_throws inherits name fn r (method inherits name fn) methods statics
    "Instance method must be a function!"
  /\ assigns_or_throws inherits name fn r (static inherits name fn) statics methods
       "Static method must be a function!".
Proof.
  unfold assigns_or_throws, method, static.
  destruct (String.eqb name "") eqn:Ename; [repeat split |].
  destruct (function_of fn) as [c |]; [| repeat split].
  split.
  - destruct (met inherits name (methods r)) as [| | [u | e]] eqn:Hmet.
    + destruct (assign_free inherits name c (methods r) Hmet) as (after & -> & H).
      repeat split; apply H.
    + unfold assign. rewrite Hmet. repeat split.
    + unfold assign. rewrite Hmet. destruct r, u. repeat split.
    + unfold assign. rewrite Hmet. repeat split.
  - destruct (met inherits name (statics r)) as [| | [u | e]] eqn:Hmet.
    + destruct (assign_free inherits name c (statics r) Hmet) as (after & -> & H).
      repeat split; apply H.
    + unfold assign. rewrite Hmet. repeat split.
    + unfold assign. rewrite Hmet. destruct r, u. repeat split.
    + unfold assign. rewrite Hmet. repeat split.
Qed.

(** The reading of a function as a prototype that the language gives: its
    [length] and its [name] cannot be written. *)
Definition plain_function (c : callable) (name : string) : inherited :=
  if String.eqb name "length" || String.eqb name "name" then ReadOnly else Free.

(** After [method('__proto__', f)] the table has no key and inherits from
    [f]: [method('length', g)] throws, and [method('greet', g)] returns. *)
Example method_after_proto :
  let f := Callable {| fn_id := 1; fn_length := 0 |} in
  let g := Callable {| fn_id := 2; fn_length := 0 |} in
  let r := snd (method plain_function "__proto__" f Registry_empty) in
  dom (own (methods r)) = ∅
  /\ fst (method plain_function "length" g r) = Throw (TypeError NotWritable)
  /\ fst (method plain_function "greet" g r) = Ok tt
  /\ fst (method plain_function "length" g Registry_empty) = Ok tt.
Proof. repeat split. Qed.

End Registry.
